(** * Before/After Copy Comparer: word diff and readability metrics

    A shallow embedding of [src/utils/diff.js] and [src/utils/textAnalysis.js].

    - A JavaScript string is the list of its UTF-16 code units ([jsstring]).
    - The regular expressions of the program are written with a handful of
      backtracking combinators in continuation-passing style, the way the
      ECMAScript specification defines pattern matching.
    - Numbers that hold array lengths and counters are natural numbers or
      integers; the readability values are IEEE binary64 floats, which is
      what a JavaScript Number is.

    The file has the embedding first (strings, regular expressions,
    [diff.js], numbers, [textAnalysis.js]), then the definitions that follow
    the words of the specification, then the properties: the differ
    (edit scripts, the LCS table, backtracking), the analyzer (syllables,
    words, blank texts, texts without words), the scorer and the summary. *)

From Stdlib Require Import Ascii String.
From Stdlib Require Import DecimalString.
From Stdlib Require Import List Bool Arith ZArith NArith Lia.
From Stdlib Require Import Floats.
From Stdlib Require Uint63.
From Stdlib Require Import Relations.Relation_Operators.
From Equations Require Import Equations.
Import ListNotations.

#[local] Set Warnings "-inexact-float".

(* ===================================================================== *)
(** * JavaScript strings *)
(* ===================================================================== *)

Definition jsstring := list N.

(** An ASCII literal of the source, as code units. *)
Definition lit (s : string) : jsstring :=
  map N_of_ascii (list_ascii_of_string s).

(** [x === y] on strings. *)
Fixpoint str_eqb (x y : jsstring) : bool :=
  match x, y with
  | [], [] => true
  | c :: x', d :: y' => N.eqb c d && str_eqb x' y'
  | _, _ => false
  end.

(** [!s] for a string [s]: true when the string is empty. *)
Definition str_empty (s : jsstring) : bool :=
  match s with [] => true | _ => false end.

Definition in_range (lo hi c : N) : bool := N.leb lo c && N.leb c hi.

(** WhiteSpace and LineTerminator code units: the set that both [\s] and
    [String.prototype.trim] use. *)
Definition is_space (c : N) : bool :=
  in_range 9 13 c || N.eqb c 32 || N.eqb c 0xA0 || N.eqb c 0x1680
  || in_range 0x2000 0x200A c || N.eqb c 0x2028 || N.eqb c 0x2029
  || N.eqb c 0x202F || N.eqb c 0x205F || N.eqb c 0x3000 || N.eqb c 0xFEFF.

Definition is_upper (c : N) : bool := in_range 65 90 c.
Definition is_lower (c : N) : bool := in_range 97 122 c.
Definition is_letter (c : N) : bool := is_upper c || is_lower c.
Definition is_digit (c : N) : bool := in_range 48 57 c.

(** [\w] = [[A-Za-z0-9_]]. *)
Definition is_word_char (c : N) : bool :=
  is_letter c || is_digit c || N.eqb c 95.

Fixpoint drop_while (p : N -> bool) (s : jsstring) : jsstring :=
  match s with
  | c :: s' => if p c then drop_while p s' else s
  | [] => []
  end.

Fixpoint take_while (p : N -> bool) (s : jsstring) : jsstring :=
  match s with
  | c :: s' => if p c then c :: take_while p s' else []
  | [] => []
  end.

(** [s.trim()] *)
Definition trim (s : jsstring) : jsstring :=
  rev (drop_while is_space (rev (drop_while is_space s))).

(** [s.endsWith(suffix)] *)
Fixpoint starts_with (p s : jsstring) : bool :=
  match p, s with
  | [], _ => true
  | c :: p', d :: s' => N.eqb c d && starts_with p' s'
  | _ :: _, [] => false
  end.

Definition endsWith (s suffix : jsstring) : bool :=
  starts_with (rev suffix) (rev s).

(* ===================================================================== *)
(** * Regular expressions

    A matcher takes a continuation and the current position, given as the
    code unit just before it (if any) and the input that is left.  It
    answers with the input left after the whole match, or [None].  Greedy
    quantifiers try the longest repetition first and fall back one code
    unit at a time, as a backtracking engine does. *)
(* ===================================================================== *)

Definition cont := option N -> jsstring -> option jsstring.
Definition matcher := cont -> cont.

(** The continuation that ends a match. *)
Definition r_done : cont := fun _ s => Some s.

(** A character class. *)
Definition r_class (p : N -> bool) : matcher :=
  fun k _ s =>
    match s with
    | c :: s' => if p c then k (Some c) s' else None
    | [] => None
    end.

(** [r1 r2] *)
Definition r_seq (m1 m2 : matcher) : matcher := fun k => m1 (m2 k).

(** [r1 | r2]: the left alternative first. *)
Definition r_alt (m1 m2 : matcher) : matcher :=
  fun k prev s =>
    match m1 k prev s with
    | Some r => Some r
    | None => m2 k prev s
    end.

(** [[class]*], greedy. *)
Fixpoint r_star (p : N -> bool) (k : cont) (prev : option N) (s : jsstring)
  : option jsstring :=
  match s with
  | c :: s' =>
      if p c then
        match r_star p k (Some c) s' with
        | Some r => Some r
        | None => k prev s
        end
      else k prev s
  | [] => k prev s
  end.

(** [[class]+], greedy. *)
Definition r_plus (p : N -> bool) : matcher := r_seq (r_class p) (r_star p).

Definition is_word_opt (c : option N) : bool :=
  match c with Some c => is_word_char c | None => false end.

(** [\b]: exactly one of the two neighbours is a [\w] character. *)
Definition r_wb : matcher :=
  fun k prev s =>
    if xorb (is_word_opt prev) (is_word_opt (hd_error s)) then k prev s
    else None.

(** Canonicalize of the [i] flag (no [u] flag), as far as the patterns of
    the program need it: an ASCII letter folds to upper case, and a code
    unit from 128 on never folds to an ASCII one (it is left as it is
    here).  The patterns hold ASCII only, so a code unit of the input
    matches a pattern character exactly when their [canon] are equal. *)
Definition canon (c : N) : N := if is_lower c then (c - 32)%N else c.

(** A literal under the [i] flag. *)
Fixpoint r_lit_ci (l : jsstring) : matcher :=
  match l with
  | [] => fun k => k
  | c :: l' => r_seq (r_class (fun d => N.eqb (canon d) (canon c))) (r_lit_ci l')
  end.

(** The first alternative of a list that matches. *)
Fixpoint r_alts (ms : list matcher) : matcher :=
  match ms with
  | [] => fun _ _ _ => None
  | m :: ms' => r_alt m (r_alts ms')
  end.

(** [s.match(/re/g)]: every match, left to right, each search resuming
    where the last match ended (one code unit further after an empty
    match).  [skip] counts the code units of the current match still to be
    stepped over.  The source turns the [null] of "no match" into [[]]. *)
Fixpoint match_all (m : matcher) (skip : nat) (prev : option N) (s : jsstring)
  : list jsstring :=
  match s with
  | [] =>
      match skip, m r_done prev [] with
      | O, Some _ => [[]]
      | _, _ => []
      end
  | c :: s' =>
      match skip with
      | S n => match_all m n (Some c) s'
      | O =>
          match m r_done prev s with
          | Some rest =>
              let len := length s - length rest in
              firstn len s :: match_all m (len - 1) (Some c) s'
          | None => match_all m 0 (Some c) s'
          end
      end
  end.

Definition js_match_g (m : matcher) (s : jsstring) : list jsstring :=
  match_all m 0 None s.

(** [s.split(/re/)] for a non-empty [s]: the pieces between the matches.
    [cur] is the piece being collected; an empty match at the start of a
    piece is passed over. *)
Fixpoint split_go (m : matcher) (skip : nat) (cur : jsstring)
  (prev : option N) (s : jsstring) : list jsstring :=
  match s with
  | [] => [cur]
  | c :: s' =>
      match skip with
      | S n => split_go m n cur (Some c) s'
      | O =>
          match m r_done prev s with
          | Some rest =>
              match length s - length rest with
              | O =>
                  match cur with
                  | [] => split_go m 0 [c] (Some c) s'
                  | _ => cur :: split_go m 0 [c] (Some c) s'
                  end
              | S n => cur :: split_go m n [] (Some c) s'
              end
          | None => split_go m 0 (cur ++ [c]) (Some c) s'
          end
      end
  end.

Definition js_split (m : matcher) (s : jsstring) : list jsstring :=
  split_go m 0 [] None s.

(* ===================================================================== *)
(** * diff.js *)
(* ===================================================================== *)

Inductive optype := equal | insert | delete.

Record op := mkOp { type : optype; value : jsstring }.

Definition optype_eqb (x y : optype) : bool :=
  match x, y with
  | equal, equal | insert, insert | delete, delete => true
  | _, _ => false
  end.

(** The table [dp], an array of rows.  Every index the program uses is in
    range (see [lcsTable_shape]); a read out of range is given 0 here and
    a write out of range does nothing. *)
Definition table := list (list nat).

Fixpoint upd {A} (k : nat) (v : A) (l : list A) : list A :=
  match l, k with
  | [], _ => []
  | _ :: l', O => v :: l'
  | x :: l', S k' => x :: upd k' v l'
  end.

Definition dp_get (dp : table) (i j : nat) : nat := nth j (nth i dp []) 0.

Definition dp_set (dp : table) (i j v : nat) : table :=
  upd i (upd j v (nth i dp [])) dp.

(** [m + 1] rows of [n + 1] cells. *)
Definition shape (m n : nat) (dp : table) : Prop :=
  length dp = m + 1 /\ forall i, i <= m -> length (nth i dp []) = n + 1.

(** [a[i]] for an index in range. *)
Definition at_ (a : list jsstring) (i : nat) : jsstring := nth i a [].

Section LcsTable.
Variables a b : list jsstring.

(** The body of the inner loop. *)
Definition lcs_cell (i : nat) (dp : table) (j : nat) : table :=
  if str_eqb (at_ a (i - 1)) (at_ b (j - 1))
  then dp_set dp i j (dp_get dp (i - 1) (j - 1) + 1)
  else dp_set dp i j (Nat.max (dp_get dp (i - 1) j) (dp_get dp i (j - 1))).

(** [for (let j = 1; j <= n; j++)] *)
Definition lcs_row (dp : table) (i : nat) : table :=
  fold_left (lcs_cell i) (seq 1 (length b)) dp.

(** [lcsTable(a, b)]; [Array.from] builds every row anew, so no two rows
    share their cells. *)
Definition lcsTable : table :=
  let m := length a in
  let n := length b in
  let dp := repeat (repeat 0 (n + 1)) (m + 1) in
  fold_left lcs_row (seq 1 m) dp.
End LcsTable.

Definition inspect {A} (x : A) : {y : A | x = y} := exist _ x eq_refl.

(** The three tests of the loop body of [backtrack]. *)
Definition bt_more (i j : nat) : bool := (0 <? i) || (0 <? j).

Definition bt_equal (a b : list jsstring) (i j : nat) : bool :=
  (0 <? i) && (0 <? j) && str_eqb (at_ a (i - 1)) (at_ b (j - 1)).

Definition bt_insert (dp : table) (i j : nat) : bool :=
  (0 <? j) && ((i =? 0) || (dp_get dp (i - 1) j <=? dp_get dp i (j - 1))).

(** The [while] loop of [backtrack]; [result.unshift(x)] puts [x] in front.
    Each turn lowers [i + j]. *)
Equations? backtrack_loop (dp : table) (a b : list jsstring) (i j : nat)
  (result : list op) : list op by wf (i + j) lt :=
  backtrack_loop dp a b i j result with inspect (bt_more i j) => {
    | exist _ false _ := result;
    | exist _ true Hmore with inspect (bt_equal a b i j) => {
        | exist _ true Heq :=
            backtrack_loop dp a b (i - 1) (j - 1)
              (mkOp equal (at_ a (i - 1)) :: result);
        | exist _ false Heq with inspect (bt_insert dp i j) => {
            | exist _ true Hins :=
                backtrack_loop dp a b i (j - 1)
                  (mkOp insert (at_ b (j - 1)) :: result);
            | exist _ false Hins :=
                backtrack_loop dp a b (i - 1) j
                  (mkOp delete (at_ a (i - 1)) :: result) } } }.
Proof.
  - unfold bt_equal in Heq.
    apply andb_prop in Heq as [Heq _]. apply andb_prop in Heq as [Hi Hj].
    apply Nat.ltb_lt in Hi, Hj. lia.
  - unfold bt_insert in Hins. apply andb_prop in Hins as [Hj _].
    apply Nat.ltb_lt in Hj. lia.
  - unfold bt_more in Hmore. unfold bt_insert in Hins.
    destruct i as [|i]; [|lia].
    destruct j as [|j]; simpl in *; discriminate.
Qed.

(** [backtrack(dp, a, b)] *)
Definition backtrack (dp : table) (a b : list jsstring) : list op :=
  backtrack_loop dp a b (length a) (length b) [].

(** [/\S+|\s+/g] *)
Definition re_token : matcher :=
  r_alt (r_plus (fun c => negb (is_space c))) (r_plus is_space).

(** [tokenize(text)] *)
Definition tokenize (text : jsstring) : list jsstring :=
  if str_empty text then [] else js_match_g re_token text.

(** [t => t.trim() !== ''] *)
Definition is_word_token (t : jsstring) : bool := negb (str_eqb (trim t) []).

(** [computeDiff(beforeText, afterText)] *)
Definition computeDiff (beforeText afterText : jsstring) : list op :=
  let beforeTokens := tokenize beforeText in
  let afterTokens := tokenize afterText in
  let beforeWords := filter is_word_token beforeTokens in
  let afterWords := filter is_word_token afterTokens in
  let dp := lcsTable beforeWords afterWords in
  let ops := backtrack dp beforeWords afterWords in
  ops.

Record segment := mkSegment { text : jsstring; highlighted : bool }.

(** [getBeforeView(ops)] *)
Definition getBeforeView (ops : list op) : list segment :=
  map (fun o => mkSegment (value o) (optype_eqb (type o) delete))
    (filter (fun o => optype_eqb (type o) equal || optype_eqb (type o) delete) ops).

(** [getAfterView(ops)] *)
Definition getAfterView (ops : list op) : list segment :=
  map (fun o => mkSegment (value o) (optype_eqb (type o) insert))
    (filter (fun o => optype_eqb (type o) equal || optype_eqb (type o) insert) ops).

(* ===================================================================== *)
(** * Numbers

    A JavaScript Number is an IEEE 754 binary64 value, and so is a [float].
    The counters of the program (array lengths, numbers of matches) are
    kept as natural numbers and turned into floats where the program
    divides them; the conversion is exact below 2^53. *)
(* ===================================================================== *)

Definition nat_to_float (n : nat) : float :=
  PrimFloat.of_uint63 (Uint63.of_Z (Z.of_nat n)).

Definition Z_to_float (z : Z) : float :=
  match z with
  | Z0 => 0%float
  | Zpos _ => PrimFloat.of_uint63 (Uint63.of_Z z)
  | Zneg p => (- PrimFloat.of_uint63 (Uint63.of_Z (Zpos p)))%float
  end.

Definition two52 : float := 4503599627370496%float.

(** [Math.floor(x)]; from 2^52 on every float is integral, and below it
    adding and taking away 2^52 rounds to an integer. *)
Definition js_floor (x : float) : float :=
  if PrimFloat.is_nan x then x
  else if (x =? 0)%float then x
  else if (abs x <? two52)%float then
    let r := if (0 <=? x)%float then ((x + two52) - two52)%float
             else ((x - two52) + two52)%float in
    if (x <? r)%float then (r - 1)%float else r
  else x.

(** [Math.round(x)]: the nearest integer, a tie going up; a zero result
    keeps the sign of [x]. *)
Definition js_round (x : float) : float :=
  if PrimFloat.is_nan x then x
  else if (abs x <? two52)%float then
    let f := js_floor x in
    let r := if (0.5 <=? x - f)%float then (f + 1)%float else f in
    if (r =? 0)%float then (if get_sign x then (-0)%float else 0%float) else r
  else x.

(** [Math.max(x, y)] and [Math.min(x, y)]: NaN if either is NaN, and +0 is
    larger than -0. *)
Definition js_max (x y : float) : float :=
  if PrimFloat.is_nan x then x
  else if PrimFloat.is_nan y then y
  else if (x <? y)%float then y
  else if (y <? x)%float then x
  else if get_sign x then y else x.

Definition js_min (x y : float) : float :=
  if PrimFloat.is_nan x then x
  else if PrimFloat.is_nan y then y
  else if (x <? y)%float then x
  else if (y <? x)%float then y
  else if get_sign x then x else y.

(** The integer a float holds, for a float that holds one. *)
Definition float_to_Z (x : float) : Z :=
  match Prim2SF x with
  | S754_finite sign m e =>
      let v := match e with
               | Zneg p => Z.shiftr (Zpos m) (Zpos p)
               | _ => Z.shiftl (Zpos m) e
               end in
      if sign then (- v)%Z else v
  | _ => 0%Z
  end.

Definition decimal (z : Z) : jsstring :=
  lit (NilZero.string_of_uint (N.to_uint (Z.to_N z))).

(** The text of a Number that is an integer number of tenths, as are the
    values [analyzeText] rounds with [Math.round(x * 10) / 10]: the integer
    part, then a point and one digit unless that digit is 0.  This is
    what [Number::toString] gives for such values; it is used to run
    [generateSummary] on the metrics of a text. *)
Definition number_text (x : float) : jsstring :=
  if PrimFloat.is_nan x then lit "NaN"
  else if PrimFloat.is_infinity x then
    if get_sign x then lit "-Infinity" else lit "Infinity"
  else
    let tenths := float_to_Z (js_round (x * 10)%float) in
    let n := Z.abs tenths in
    (if (tenths <? 0)%Z then lit "-" else [])
      ++ decimal (n / 10)
      ++ (if (n mod 10 =? 0)%Z then [] else lit "." ++ decimal (n mod 10)).

(* ===================================================================== *)
(** * textAnalysis.js *)
(* ===================================================================== *)

(** [s.toLowerCase()], one code unit at a time.  Only two code units
    outside ASCII have an ASCII letter in their lower case: U+0130 (which
    becomes [i] and U+0307) and U+212A, the Kelvin sign (which becomes [k]).
    Every other code unit outside ASCII lower-cases to code units outside
    ASCII and is left as it is here: the program keeps only ASCII letters
    of the result, or lower-cases words made of ASCII only. *)
Definition lower_unit (c : N) : jsstring :=
  if is_upper c then [(c + 32)%N]
  else if N.eqb c 0x130 then [105%N; 0x307%N]
  else if N.eqb c 0x212A then [107%N]
  else [c].

Definition toLowerCase (s : jsstring) : jsstring := flat_map lower_unit s.

(** [[aeiouy]] *)
Definition is_vowel (c : N) : bool :=
  N.eqb c 97 || N.eqb c 101 || N.eqb c 105 || N.eqb c 111 || N.eqb c 117
  || N.eqb c 121.

(** [/[aeiouy]+/g] *)
Definition re_vowels : matcher := r_plus is_vowel.

(** [countSyllables(word)]; [replace(/[^a-z]/g, '')] drops every code unit
    that is not a lower-case ASCII letter. *)
Definition countSyllables (word : jsstring) : nat :=
  let word := filter is_lower (toLowerCase word) in
  if str_empty word then 0
  else if length word <=? 2 then 1
  else
    let vowelGroups := js_match_g re_vowels word in
    match vowelGroups with
    | [] => 1
    | _ :: _ =>
        let count := length vowelGroups in
        let count :=
          if endsWith word (lit "e") && negb (endsWith word (lit "le"))
             && (1 <? count)
          then count - 1 else count in
        let count :=
          if endsWith word (lit "es") && negb (endsWith word (lit "tes"))
             && negb (endsWith word (lit "ses")) && (1 <? count)
          then count - 1 else count in
        let count :=
          if endsWith word (lit "ed") && negb (endsWith word (lit "ted"))
             && negb (endsWith word (lit "ded")) && (1 <? count)
          then count - 1 else count in
        Nat.max 1 count
    end.

(** [[.!?]] *)
Definition is_terminator (c : N) : bool :=
  N.eqb c 46 || N.eqb c 33 || N.eqb c 63.

(** [/[.!?]+\s*/] *)
Definition re_sentence_end : matcher :=
  r_seq (r_plus is_terminator) (r_star is_space).

(** [splitSentences(text)] *)
Definition splitSentences (text : jsstring) : list jsstring :=
  if str_empty (trim text) then []
  else filter (fun s => 0 <? length (trim s)) (js_split re_sentence_end text).

(** [[a-zA-Z'-]] *)
Definition is_word_unit (c : N) : bool :=
  is_letter c || N.eqb c 39 || N.eqb c 45.

(** [/\b[a-zA-Z'-]+\b/g] *)
Definition re_word : matcher :=
  r_seq r_wb (r_seq (r_plus is_word_unit) r_wb).

(** [splitWords(text)] *)
Definition splitWords (text : jsstring) : list jsstring :=
  if str_empty (trim text) then [] else js_match_g re_word text.

Definition auxiliaries : list string :=
  ["is"; "was"; "were"; "been"; "being"; "are"; "am"; "has been";
   "have been"; "had been"; "will be"; "shall be"; "could be"; "would be";
   "might be"; "must be"]%string.

(** [/\b(is|was|...|must be)\s+(\w+ed|(\w+en))\b/gi] *)
Definition re_passive : matcher :=
  r_seq r_wb
    (r_seq (r_alts (map (fun w => r_lit_ci (lit w)) auxiliaries))
       (r_seq (r_plus is_space)
          (r_seq
             (r_alt (r_seq (r_plus is_word_char) (r_lit_ci (lit "ed")))
                    (r_seq (r_plus is_word_char) (r_lit_ci (lit "en"))))
             r_wb))).

(** The shape of an auxiliary: a letter, then letters and blanks. *)
Definition aux_shape_ok (w : string) : bool :=
  match lit w with
  | c :: l => is_letter c && forallb (fun c => is_letter c || N.eqb c 32) l
  | [] => false
  end.

(** [countPassiveVoice(text)] *)
Definition countPassiveVoice (text : jsstring) : nat :=
  let matches := js_match_g re_passive text in
  length matches.

Definition nonAdverbs : list string :=
  ["only"; "family"; "early"; "daily"; "holy"; "ugly"; "lonely";
   "friendly"; "lovely"; "likely"; "unlikely"; "rally"; "belly";
   "bully"; "fly"; "ally"; "apply"; "supply"; "reply"; "july";
   "italy"; "multiply"; "butterfly"; "jelly"; "lily"; "assembly";
   "anomaly"; "homily"; "melancholy"; "monopoly"; "poly"; "curly"]%string.

(** [countAdverbs(text)] *)
Definition countAdverbs (text : jsstring) : nat :=
  let words := splitWords text in
  length
    (filter
       (fun w =>
          let lower := toLowerCase w in
          endsWith lower (lit "ly") && (3 <? length lower)
          && negb (existsb (fun x => str_eqb (lit x) lower) nonAdverbs))
       words).

(** The metrics object.  The counts are lengths of arrays; the other
    fields come out of float arithmetic. *)
Record Metrics := mkMetrics {
  wordCount : nat;
  sentenceCount : nat;
  avgSentenceLength : float;
  fleschKincaidGrade : float;
  fleschReadingEase : float;
  readingTime : float;
  passiveVoiceCount : nat;
  adverbCount : nat;
  syllableCount : nat
}.

(** [analyzeText(text)] *)
Definition analyzeText (text : jsstring) : Metrics :=
  if str_empty text || str_empty (trim text) then
    {| wordCount := 0;
       sentenceCount := 0;
       avgSentenceLength := 0;
       fleschKincaidGrade := 0;
       fleschReadingEase := 0;
       readingTime := 0;
       passiveVoiceCount := 0;
       adverbCount := 0;
       syllableCount := 0 |}
  else
    let words := splitWords text in
    let sentences := splitSentences text in
    let wordCount := length words in
    let sentenceCount := Nat.max (length sentences) 1 in
    let avgSentenceLength :=
      (nat_to_float wordCount / nat_to_float sentenceCount)%float in
    let syllableCount :=
      fold_left (fun sum w => sum + countSyllables w) words 0 in
    let avgSyllablesPerWord :=
      if 0 <? wordCount
      then (nat_to_float syllableCount / nat_to_float wordCount)%float
      else 0%float in
    let fleschKincaidGrade :=
      if 0 <? wordCount
      then (0.39 * avgSentenceLength + 11.8 * avgSyllablesPerWord - 15.59)%float
      else 0%float in
    let fleschReadingEase :=
      if 0 <? wordCount
      then (206.835 - 1.015 * avgSentenceLength - 84.6 * avgSyllablesPerWord)%float
      else 0%float in
    let readingTime := js_round ((nat_to_float wordCount / 200) * 60)%float in
    let passiveVoiceCount := countPassiveVoice text in
    let adverbCount := countAdverbs text in
    {| wordCount := wordCount;
       sentenceCount := sentenceCount;
       avgSentenceLength := (js_round (avgSentenceLength * 10) / 10)%float;
       fleschKincaidGrade :=
         (js_round (js_max 0 fleschKincaidGrade * 10) / 10)%float;
       fleschReadingEase :=
         (js_round (js_min 100 (js_max 0 fleschReadingEase) * 10) / 10)%float;
       readingTime := readingTime;
       passiveVoiceCount := passiveVoiceCount;
       adverbCount := adverbCount;
       syllableCount := syllableCount |}.

(** The five blocks of [calculateImprovementScore]; each takes the running
    [totalScore] and gives the new one.  The weights of the source are
    written where they are used. *)
Definition score_readingEase (b a : Metrics) (totalScore : float) : float :=
  if (0 <? fleschReadingEase b)%float then
    let change :=
      ((fleschReadingEase a - fleschReadingEase b) / fleschReadingEase b)%float in
    (totalScore + change * 0.30)%float
  else totalScore.

Definition score_grade (b a : Metrics) (totalScore : float) : float :=
  if (0 <? fleschKincaidGrade b)%float then
    let change :=
      ((fleschKincaidGrade b - fleschKincaidGrade a) / fleschKincaidGrade b)%float in
    (totalScore + change * 0.25)%float
  else totalScore.

Definition score_sentenceLength (b a : Metrics) (totalScore : float) : float :=
  if (0 <? avgSentenceLength b)%float then
    let change :=
      ((avgSentenceLength b - avgSentenceLength a) / avgSentenceLength b)%float in
    (totalScore + change * 0.20)%float
  else totalScore.

Definition score_passive (b a : Metrics) (totalScore : float) : float :=
  if 0 <? passiveVoiceCount b then
    let change :=
      (Z_to_float (Z.of_nat (passiveVoiceCount b) - Z.of_nat (passiveVoiceCount a))
       / nat_to_float (passiveVoiceCount b))%float in
    (totalScore + change * 0.15)%float
  else if passiveVoiceCount a =? 0 then (totalScore + 0)%float
  else (totalScore - 0.15 * 0.5)%float.

Definition score_adverbs (b a : Metrics) (totalScore : float) : float :=
  if 0 <? adverbCount b then
    let change :=
      (Z_to_float (Z.of_nat (adverbCount b) - Z.of_nat (adverbCount a))
       / nat_to_float (adverbCount b))%float in
    (totalScore + change * 0.10)%float
  else if 0 <? adverbCount a then (totalScore - 0.10 * 0.5)%float
  else totalScore.

(** [totalScore] when the last block is done. *)
Definition totalScore (b a : Metrics) : float :=
  score_adverbs b a
    (score_passive b a
       (score_sentenceLength b a
          (score_grade b a
             (score_readingEase b a 0%float)))).

(** [calculateImprovementScore(beforeMetrics, afterMetrics)] *)
Definition calculateImprovementScore (beforeMetrics afterMetrics : Metrics)
  : float :=
  if (wordCount beforeMetrics =? 0) || (wordCount afterMetrics =? 0)
  then 0%float
  else js_round (totalScore beforeMetrics afterMetrics * 100)%float.

(** [s.charAt(0).toUpperCase() + s.slice(1)] for a string that starts with
    an ASCII letter, as every observation does. *)
Definition capitalize (s : jsstring) : jsstring :=
  match s with
  | c :: s' => canon c :: s'
  | [] => []
  end.

(** [l.join(sep)] *)
Fixpoint join (sep : jsstring) (l : list jsstring) : jsstring :=
  match l with
  | [] => []
  | [x] => x
  | x :: l' => x ++ sep ++ join sep l'
  end.

Section Summary.
(** The text of a Number in a template literal ([Number::toString] of the
    runtime). *)
Variable num_str : float -> jsstring.

(** The observations, in the order the source pushes them. *)
Definition observations (b a : Metrics) : list jsstring :=
  let wordDiff := (Z.of_nat (wordCount a) - Z.of_nat (wordCount b))%Z in
  let o1 :=
    if (wordDiff <? -10)%Z then [lit "Your revision is more concise"]
    else if (10 <? wordDiff)%Z then [lit "Your revision is longer"]
    else [] in
  let gradeDiff := (fleschKincaidGrade a - fleschKincaidGrade b)%float in
  let o2 :=
    if (gradeDiff <? -1)%float then
      [lit "easier to read (grade level dropped from "
         ++ num_str (fleschKincaidGrade b) ++ lit " to "
         ++ num_str (fleschKincaidGrade a) ++ lit ")"]
    else if (1 <? gradeDiff)%float then
      [lit "more complex (grade level rose from "
         ++ num_str (fleschKincaidGrade b) ++ lit " to "
         ++ num_str (fleschKincaidGrade a) ++ lit ")"]
    else [] in
  let sentDiff := (avgSentenceLength a - avgSentenceLength b)%float in
  let o3 :=
    if (sentDiff <? -3)%float then [lit "uses shorter sentences"]
    else if (3 <? sentDiff)%float then [lit "has longer sentences"]
    else [] in
  let passiveDiff :=
    (Z.of_nat (passiveVoiceCount a) - Z.of_nat (passiveVoiceCount b))%Z in
  let o4 :=
    if (passiveDiff <? 0)%Z then [lit "uses more active voice"]
    else if (0 <? passiveDiff)%Z then [lit "introduces more passive voice"]
    else [] in
  let adverbDiff :=
    (Z.of_nat (adverbCount a) - Z.of_nat (adverbCount b))%Z in
  let o5 :=
    if (adverbDiff <? -2)%Z then [lit "cuts unnecessary adverbs"]
    else if (2 <? adverbDiff)%Z then [lit "adds more adverbs"]
    else [] in
  o1 ++ o2 ++ o3 ++ o4 ++ o5.

(** The sentence built from the observations, with its full stop. *)
Definition build_summary (obs : list jsstring) : jsstring :=
  let summary := capitalize (hd [] obs) in
  let summary :=
    if 1 <? length obs then
      let rest := tl obs in
      if length rest =? 1 then summary ++ lit " and " ++ hd [] rest
      else
        summary ++ lit ", " ++ join (lit ", ") (removelast rest)
          ++ lit ", and " ++ last rest []
    else summary in
  summary ++ lit ".".

(** The recommendation. *)
Definition recommendation (improvementScore : float) : jsstring :=
  if (5 <? improvementScore)%float then
    lit " Overall, this is a stronger version for a wider audience."
  else if (improvementScore <? -5)%float then
    lit " Consider simplifying sentences and using more direct language."
  else lit " The readability is roughly the same as the original.".

(** The tip about long sentences. *)
Definition tip (a : Metrics) : jsstring :=
  if (20 <? avgSentenceLength a)%float then
    lit " Tip: Your average sentence is " ++ num_str (avgSentenceLength a)
      ++ lit " words. Consider breaking up sentences longer than 20 words."
  else [].

(** [generateSummary(beforeMetrics, afterMetrics, improvementScore)] *)
Definition generateSummary (beforeMetrics afterMetrics : Metrics)
  (improvementScore : float) : jsstring :=
  if (wordCount beforeMetrics =? 0) || (wordCount afterMetrics =? 0) then
    lit "Enter text in both fields to see an analysis."
  else
    let obs := observations beforeMetrics afterMetrics in
    if length obs =? 0 then
      lit "The two versions are very similar in readability. The differences are minimal."
    else
      build_summary obs ++ recommendation improvementScore
        ++ tip afterMetrics.
End Summary.

Inductive direction := improved | worsened | neutral.

(** [getMetricDirection(metricName, beforeValue, afterValue)]; the values
    are Numbers, [===] on them is the float equality (NaN is not equal to
    itself, and 0 equals -0). *)
Definition getMetricDirection (metricName : jsstring)
  (beforeValue afterValue : float) : direction :=
  if (beforeValue =? afterValue)%float then neutral
  else if str_eqb metricName (lit "avgSentenceLength") then
    if (afterValue <? beforeValue)%float then improved else worsened
  else if str_eqb metricName (lit "fleschKincaidGrade") then
    if (afterValue <? beforeValue)%float then improved else worsened
  else if str_eqb metricName (lit "fleschReadingEase") then
    if (beforeValue <? afterValue)%float then improved else worsened
  else if str_eqb metricName (lit "passiveVoiceCount") then
    if (afterValue <? beforeValue)%float then improved else worsened
  else if str_eqb metricName (lit "adverbCount") then
    if (afterValue <? beforeValue)%float then improved else worsened
  else if str_eqb metricName (lit "wordCount")
          || str_eqb metricName (lit "readingTime")
          || str_eqb metricName (lit "sentenceCount") then neutral
  else neutral.

(* ===================================================================== *)
(** * MetricsTable.jsx *)
(* ===================================================================== *)

(** [readingEaseLabel(score)] *)
Definition readingEaseLabel (score : float) : jsstring :=
  if (80 <=? score)%float then lit "Easy"
  else if (60 <=? score)%float then lit "Standard"
  else if (40 <=? score)%float then lit "Difficult"
  else lit "Very Difficult".

(** [gradeLevelLabel(grade)] *)
Definition gradeLevelLabel (grade : float) : jsstring :=
  if (grade <=? 6)%float then lit "Elementary"
  else if (grade <=? 8)%float then lit "Middle School"
  else if (grade <=? 12)%float then lit "High School"
  else lit "College+".

(* ===================================================================== *)
(** * App.jsx *)
(* ===================================================================== *)

Record Results := mkResults {
  beforeView : list segment;
  afterView : list segment;
  beforeMetrics : Metrics;
  afterMetrics : Metrics;
  improvementScore : float;
  summary : jsstring
}.

(** The state of the component. *)
Record AppState := mkAppState {
  beforeText : jsstring;
  afterText : jsstring;
  results : option Results;
  copied : bool
}.

Section App.
(** The text of a Number in a template literal, as in [generateSummary]. *)
Variable num_str : float -> jsstring.

(** [handleCompare()]: the state after the handler has run. *)
Definition handleCompare (st : AppState) : AppState :=
  if str_empty (trim (beforeText st)) || str_empty (trim (afterText st))
  then st
  else
    let diffOps := computeDiff (beforeText st) (afterText st) in
    let beforeView := getBeforeView diffOps in
    let afterView := getAfterView diffOps in
    let beforeMetrics := analyzeText (beforeText st) in
    let afterMetrics := analyzeText (afterText st) in
    let improvementScore :=
      calculateImprovementScore beforeMetrics afterMetrics in
    let summary :=
      generateSummary num_str beforeMetrics afterMetrics improvementScore in
    mkAppState (beforeText st) (afterText st)
      (Some (mkResults beforeView afterView beforeMetrics afterMetrics
               improvementScore summary))
      (copied st).
End App.

(** [handleReset()] *)
Definition handleReset (st : AppState) : AppState :=
  mkAppState [] [] None false.

(* ===================================================================== *)
(** * The specification's words for the differ *)
(* ===================================================================== *)

(** The word-token sequence of a text as the specification describes it:
    the maximal runs of non-whitespace code units, in order. *)
Fixpoint word_tokenize_spec (s : jsstring) : list jsstring :=
  match s with
  | [] => []
  | c :: s' =>
      if is_space c then word_tokenize_spec s'
      else
        match s' with
        | d :: _ =>
            if is_space d then [c] :: word_tokenize_spec s'
            else
              match word_tokenize_spec s' with
              | w :: ws => (c :: w) :: ws
              | [] => [[c]]
              end
        | [] => [[c]]
        end
  end.

(** The ops a view keeps. *)
Definition keeps_before (o : op) : bool :=
  optype_eqb (type o) equal || optype_eqb (type o) delete.

Definition keeps_after (o : op) : bool :=
  optype_eqb (type o) equal || optype_eqb (type o) insert.

Section DiffSpec.
Variables A B : list jsstring.

(** The standard table of the specification: [dp_spec i j] is given by the
    recurrence, with zeros on the first row and the first column. *)
Fixpoint dp_spec (i : nat) : nat -> nat :=
  match i with
  | O => fun _ => 0
  | S i' =>
      fix row (j : nat) : nat :=
        match j with
        | O => 0
        | S j' =>
            if str_eqb (at_ A i') (at_ B j') then dp_spec i' j' + 1
            else Nat.max (dp_spec i' (S j')) (row j')
        end
  end.

(** One step of the backtracking of the specification, on the state
    [(i, j, ops emitted so far)]. *)
Inductive bt_step : nat * nat * list op -> nat * nat * list op -> Prop :=
| bt_step_equal i j r :
    0 < i -> 0 < j -> at_ A (i - 1) = at_ B (j - 1) ->
    bt_step (i, j, r) (i - 1, j - 1, mkOp equal (at_ A (i - 1)) :: r)
| bt_step_insert i j r :
    ~ (0 < i /\ 0 < j /\ at_ A (i - 1) = at_ B (j - 1)) ->
    0 < j -> (i = 0 \/ dp_spec i (j - 1) >= dp_spec (i - 1) j) ->
    bt_step (i, j, r) (i, j - 1, mkOp insert (at_ B (j - 1)) :: r)
| bt_step_delete i j r :
    0 < i \/ 0 < j ->
    ~ (0 < i /\ 0 < j /\ at_ A (i - 1) = at_ B (j - 1)) ->
    ~ (0 < j /\ (i = 0 \/ dp_spec i (j - 1) >= dp_spec (i - 1) j)) ->
    bt_step (i, j, r) (i - 1, j, mkOp delete (at_ A (i - 1)) :: r).

Definition bt_steps := clos_refl_trans_1n _ bt_step.
End DiffSpec.

(** [subseq c l]: [c] is [l] with some elements left out. *)
Inductive subseq : list jsstring -> list jsstring -> Prop :=
| subseq_nil l : subseq [] l
| subseq_skip x c l : subseq c l -> subseq c (x :: l)
| subseq_take x c l : subseq c l -> subseq (x :: c) (x :: l).

(** The loop invariant of [lcsTable]: the rows above [i], and row [i] up to
    column [j], hold the values of the recurrence; so do the first row and
    the first column, which are never written. *)
Definition table_inv (a b : list jsstring) (i j : nat) (dp : table) : Prop :=
  shape (length a) (length b) dp
  /\ forall i' j', i' <= length a -> j' <= length b ->
       i' = 0 \/ j' = 0 \/ i' < i \/ (i' = i /\ j' <= j) ->
       dp_get dp i' j' = dp_spec a b i' j'.

(* ===================================================================== *)
(** * The specification's words for the analyzer *)
(* ===================================================================== *)

(** The number of maximal runs of vowels; [in_run] tells that the code unit
    before was a vowel. *)
Fixpoint vowel_runs (in_run : bool) (s : jsstring) : nat :=
  match s with
  | [] => 0
  | c :: s' =>
      if is_vowel c
      then (if in_run then 0 else 1) + vowel_runs true s'
      else vowel_runs false s'
  end.

(** A word lower-cased and stripped of everything but letters. *)
Definition stripped (word : jsstring) : jsstring :=
  filter is_lower (toLowerCase word).

(** The syllable estimate as the specification words it: 1 for a stripped
    word of at most two letters; else the number of vowel runs, less one for
    each of the three endings that applies when that number exceeds 1, and
    never less than 1.  (The three endings exclude one another, so it makes
    no difference whether "the count" of the second and third test is the
    number of runs or what the test before left of it: see
    [syllable_adjust].) *)
Definition syllables_spec (word : jsstring) : nat :=
  let w := stripped word in
  if length w <=? 2 then 1
  else
    let base := vowel_runs false w in
    let silent_e :=
      endsWith w (lit "e") && negb (endsWith w (lit "le")) && (1 <? base) in
    let suffix_es :=
      endsWith w (lit "es") && negb (endsWith w (lit "tes"))
      && negb (endsWith w (lit "ses")) && (1 <? base) in
    let suffix_ed :=
      endsWith w (lit "ed") && negb (endsWith w (lit "ted"))
      && negb (endsWith w (lit "ded")) && (1 <? base) in
    Nat.max 1
      (base - (if silent_e then 1 else 0) - (if suffix_es then 1 else 0)
       - (if suffix_ed then 1 else 0)).


(** The matcher fails at this position and at every later one. *)
Fixpoint no_match (m : matcher) (prev : option N) (s : jsstring) : Prop :=
  m r_done prev s = None
  /\ match s with
     | [] => True
     | c :: s' => no_match m (Some c) s'
     end.

(* ===================================================================== *)
(** * Vocabulary for further properties *)
(* ===================================================================== *)

(** A whitespace token, told by its first code unit. *)
Definition token_is_space (t : jsstring) : bool :=
  match t with
  | c :: _ => is_space c
  | [] => false
  end.

(** Whitespace tokens and word tokens take turns. *)
Fixpoint alternating (l : list jsstring) : Prop :=
  match l with
  | t1 :: ((t2 :: _) as l') =>
      token_is_space t1 <> token_is_space t2 /\ alternating l'
  | _ => True
  end.

Definition is_equal_op (o : op) : bool := optype_eqb (type o) equal.
Definition is_insert_op (o : op) : bool := optype_eqb (type o) insert.
Definition is_delete_op (o : op) : bool := optype_eqb (type o) delete.

(** The words an edit script keeps. *)
Definition kept_words (ops : list op) : list jsstring :=
  map value (filter is_equal_op ops).

(** The opposite rating. *)
Definition flip (d : direction) : direction :=
  match d with
  | improved => worsened
  | worsened => improved
  | neutral => neutral
  end.

(** The metrics that [getMetricDirection] rates. *)
Definition rated_metrics : list string :=
  ["avgSentenceLength"; "fleschKincaidGrade"; "fleschReadingEase";
   "passiveVoiceCount"; "adverbCount"]%string.

(** What is left of one code unit of a word in
    [word.toLowerCase().replace(/[^a-z]/g, '')]. *)
Definition kept_letter (c : N) : jsstring :=
  if is_upper c then [(c + 32)%N]
  else if is_lower c then [c]
  else if N.eqb c 0x130 then [105%N]
  else if N.eqb c 0x212A then [107%N]
  else [].

(** A matcher that takes code units off the front of the input and hands
    what is left to its continuation. *)
Definition consumes (m : matcher) : Prop :=
  forall (k : cont) prev s r,
    m k prev s = Some r ->
    exists w s2 prev', s = w ++ s2 /\ k prev' s2 = Some r.

(** The labels of [readingEaseLabel], from the hardest to the easiest. *)
Definition ease_rank (label : jsstring) : nat :=
  if str_eqb label (lit "Easy") then 3
  else if str_eqb label (lit "Standard") then 2
  else if str_eqb label (lit "Difficult") then 1
  else 0.

(** The labels of [gradeLevelLabel], from the lowest to the highest. *)
Definition grade_rank (label : jsstring) : nat :=
  if str_eqb label (lit "Elementary") then 0
  else if str_eqb label (lit "Middle School") then 1
  else if str_eqb label (lit "High School") then 2
  else 3.

Ltac unfold_classes :=
  unfold is_word_unit, is_word_char, is_letter, is_digit, is_upper, is_lower,
    is_space, canon, in_range in *.

(** Class tests as linear constraints on the code unit. *)
Ltac class_props H :=
  rewrite ?orb_true_iff, ?andb_true_iff, ?N.leb_le, ?N.eqb_eq in H.

(* ===================================================================== *)
(** * Properties of the differ *)
(* ===================================================================== *)

Lemma str_eqb_eq x y : str_eqb x y = true <-> x = y.
Proof.
  revert y. induction x as [|c x IH]; intros [|d y]; simpl; split;
    try congruence; try discriminate; auto.
  - intros H. apply andb_prop in H as [H1 H2].
    apply N.eqb_eq in H1. apply IH in H2. congruence.
  - intros H. injection H as -> ->. rewrite N.eqb_refl. simpl. now apply IH.
Qed.

Lemma str_eqb_refl x : str_eqb x x = true.
Proof. now apply str_eqb_eq. Qed.

Lemma firstn_pred_snoc (a : list jsstring) i :
  0 < i -> i <= length a -> firstn i a = firstn (i - 1) a ++ [at_ a (i - 1)].
Proof.
  intros Hi Hl. destruct i as [|i]; [lia|].
  replace (S i - 1) with i by lia. clear Hi.
  revert i Hl. induction a as [|x a IH]; intros i Hl; simpl in *; [lia|].
  destruct i as [|i]; [reflexivity|].
  simpl. f_equal. unfold at_ in *. simpl. apply IH. lia.
Qed.

(** The loop, unfolded once: the body as the source has it. *)
Lemma backtrack_loop_body dp a b i j result :
  backtrack_loop dp a b i j result =
  if bt_more i j then
    if bt_equal a b i j then
      backtrack_loop dp a b (i - 1) (j - 1) (mkOp equal (at_ a (i - 1)) :: result)
    else if bt_insert dp i j then
      backtrack_loop dp a b i (j - 1) (mkOp insert (at_ b (j - 1)) :: result)
    else
      backtrack_loop dp a b (i - 1) j (mkOp delete (at_ a (i - 1)) :: result)
  else result.
Proof.
  funelim (backtrack_loop dp a b i j result);
    try match goal with E : bt_more _ _ = _ |- _ => rewrite E end;
    try match goal with E : bt_equal _ _ _ _ = _ |- _ => rewrite E end;
    try match goal with E : bt_insert _ _ _ = _ |- _ => rewrite E end;
    reflexivity.
Qed.

Lemma bt_more_false i j : bt_more i j = false -> i = 0 /\ j = 0.
Proof.
  unfold bt_more. intros H. apply orb_false_elim in H as [Hi Hj].
  apply Nat.ltb_ge in Hi, Hj. lia.
Qed.

Lemma bt_equal_true a b i j :
  bt_equal a b i j = true <-> 0 < i /\ 0 < j /\ at_ a (i - 1) = at_ b (j - 1).
Proof.
  unfold bt_equal. rewrite !andb_true_iff, !Nat.ltb_lt, str_eqb_eq. tauto.
Qed.

Lemma bt_insert_true dp i j :
  bt_insert dp i j = true <->
  0 < j /\ (i = 0 \/ dp_get dp i (j - 1) >= dp_get dp (i - 1) j).
Proof.
  unfold bt_insert.
  rewrite andb_true_iff, orb_true_iff, Nat.ltb_lt, Nat.eqb_eq, Nat.leb_le.
  unfold ge. tauto.
Qed.

(** What is left to do, given the tests that failed. *)
Lemma bt_delete_pos dp i j :
  bt_more i j = true -> bt_insert dp i j = false -> 0 < i.
Proof.
  unfold bt_more, bt_insert. destruct i, j; simpl; try discriminate; lia.
Qed.

(** Measure induction for the loop. *)
Lemma backtrack_loop_ind (P : nat -> nat -> list op -> list op -> Prop)
  dp a b :
  (forall r, P 0 0 r r) ->
  (forall i j r out,
      0 < i -> 0 < j -> at_ a (i - 1) = at_ b (j - 1) ->
      P (i - 1) (j - 1) (mkOp equal (at_ a (i - 1)) :: r) out -> P i j r out) ->
  (forall i j r out,
      bt_equal a b i j = false -> bt_insert dp i j = true -> 0 < j ->
      P i (j - 1) (mkOp insert (at_ b (j - 1)) :: r) out -> P i j r out) ->
  (forall i j r out,
      bt_equal a b i j = false -> bt_insert dp i j = false -> 0 < i ->
      P (i - 1) j (mkOp delete (at_ a (i - 1)) :: r) out -> P i j r out) ->
  forall i j r, P i j r (backtrack_loop dp a b i j r).
Proof.
  intros H0 He Hi Hd i j.
  remember (i + j) as n eqn:Hn. revert i j Hn.
  induction n as [n IH] using lt_wf_ind. intros i j Hn r.
  rewrite backtrack_loop_body.
  destruct (bt_more i j) eqn:Em.
  - destruct (bt_equal a b i j) eqn:Ee.
    + pose proof Ee as Ee'. apply bt_equal_true in Ee' as (Hi1 & Hj1 & Hab).
      apply He; auto. eapply IH; [|reflexivity]. lia.
    + destruct (bt_insert dp i j) eqn:Ei.
      * pose proof Ei as Ei'. apply bt_insert_true in Ei' as (Hj1 & _).
        apply Hi; auto. eapply IH; [|reflexivity]. lia.
      * pose proof (bt_delete_pos _ _ _ Em Ei) as Hi1.
        apply Hd; auto. eapply IH; [|reflexivity]. lia.
  - apply bt_more_false in Em as [-> ->]. apply H0.
Qed.

Lemma backtrack_loop_before dp a b i j result :
  i <= length a ->
  map value (filter keeps_before (backtrack_loop dp a b i j result))
  = firstn i a ++ map value (filter keeps_before result).
Proof.
  pattern i, j, result, (backtrack_loop dp a b i j result).
  apply backtrack_loop_ind; clear i j result.
  - reflexivity.
  - intros i j r out Hi Hj Hab IH Hl. rewrite IH by lia.
    rewrite (firstn_pred_snoc a i Hi Hl). simpl. now rewrite <- app_assoc.
  - intros i j r out _ _ Hj IH Hl. rewrite IH by lia. reflexivity.
  - intros i j r out _ _ Hi IH Hl. rewrite IH by lia.
    rewrite (firstn_pred_snoc a i Hi Hl). simpl. now rewrite <- app_assoc.
Qed.

Lemma backtrack_loop_after dp a b i j result :
  j <= length b ->
  map value (filter keeps_after (backtrack_loop dp a b i j result))
  = firstn j b ++ map value (filter keeps_after result).
Proof.
  pattern i, j, result, (backtrack_loop dp a b i j result).
  apply backtrack_loop_ind; clear i j result.
  - reflexivity.
  - intros i j r out Hi Hj Hab IH Hl. rewrite IH by lia.
    rewrite (firstn_pred_snoc b j Hj Hl). simpl. rewrite <- app_assoc.
    simpl. now rewrite Hab.
  - intros i j r out _ _ Hj IH Hl. rewrite IH by lia.
    rewrite (firstn_pred_snoc b j Hj Hl). simpl. now rewrite <- app_assoc.
  - intros i j r out _ _ Hi IH Hl. rewrite IH by lia. reflexivity.
Qed.

(** ** The tokenizer *)

Lemma take_drop_while p s : take_while p s ++ drop_while p s = s.
Proof.
  induction s as [|c s IH]; simpl; [reflexivity|].
  destruct (p c); simpl; [now rewrite IH | reflexivity].
Qed.

Lemma firstn_take_while p s : firstn (length (take_while p s)) s = take_while p s.
Proof.
  induction s as [|c s IH]; simpl; [reflexivity|].
  destruct (p c); simpl; [now rewrite IH | reflexivity].
Qed.

Lemma drop_while_length p s : length (drop_while p s) <= length s.
Proof.
  induction s as [|c s IH]; simpl; [lia|]. destruct (p c); simpl; lia.
Qed.

Lemma take_while_all p s : forallb p (take_while p s) = true.
Proof.
  induction s as [|c s IH]; simpl; [reflexivity|].
  destruct (p c) eqn:E; simpl; [now rewrite E | reflexivity].
Qed.

Lemma drop_while_all p s : forallb p s = true -> drop_while p s = [].
Proof.
  induction s as [|c s IH]; simpl; [reflexivity|].
  destruct (p c); simpl; [exact IH | discriminate].
Qed.

Lemma drop_while_nil p s : drop_while p s = [] -> forallb p s = true.
Proof.
  induction s as [|c s IH]; simpl; [reflexivity|].
  destruct (p c); simpl; [exact IH | discriminate].
Qed.

Lemma forallb_rev (p : N -> bool) s : forallb p (rev s) = forallb p s.
Proof.
  induction s as [|c s IH]; simpl; [reflexivity|].
  rewrite forallb_app, IH. simpl. rewrite andb_true_r. apply andb_comm.
Qed.

Lemma forallb_drop_while p s : forallb p (drop_while p s) = forallb p s.
Proof.
  induction s as [|c s IH]; simpl; [reflexivity|].
  destruct (p c) eqn:E; simpl; [exact IH | now rewrite E].
Qed.

(** [s.trim()] is empty exactly when [s] is only whitespace. *)
Lemma trim_nil_iff s : trim s = [] <-> forallb is_space s = true.
Proof.
  unfold trim. split.
  - intros H. apply (f_equal (@rev N)) in H. rewrite rev_involutive in H.
    simpl in H. apply drop_while_nil in H.
    now rewrite forallb_rev, forallb_drop_while in H.
  - intros H. rewrite (drop_while_all _ _ H). reflexivity.
Qed.

Lemma is_word_token_spaces t : forallb is_space t = true -> is_word_token t = false.
Proof.
  intros H. unfold is_word_token. apply trim_nil_iff in H. now rewrite H.
Qed.

Lemma is_word_token_word c t : is_space c = false -> is_word_token (c :: t) = true.
Proof.
  intros H. unfold is_word_token.
  destruct (trim (c :: t)) eqn:E; [|reflexivity].
  apply trim_nil_iff in E. simpl in E. rewrite H in E. discriminate.
Qed.

(** A greedy class repetition that nothing follows takes the whole run. *)
Lemma r_star_done p prev s : r_star p r_done prev s = Some (drop_while p s).
Proof.
  revert prev. induction s as [|c s IH]; intros prev; simpl; [reflexivity|].
  destruct (p c); [now rewrite IH | reflexivity].
Qed.

Lemma re_token_cons prev c s :
  re_token r_done prev (c :: s) =
  Some (drop_while (if is_space c then is_space
                    else fun d => negb (is_space d)) s).
Proof.
  unfold re_token, r_alt, r_plus, r_seq, r_class.
  destruct (is_space c) eqn:E; simpl; now rewrite r_star_done.
Qed.

(** Stepping over the rest of a match. *)
Lemma match_all_skip_token t : forall prev prev' s,
  match_all re_token (length t) prev (t ++ s) = match_all re_token 0 prev' s.
Proof.
  induction t as [|c t IH]; intros prev prev' s.
  - simpl. destruct s as [|d s]; [reflexivity|].
    simpl. now rewrite !re_token_cons.
  - simpl. apply IH.
Qed.

Lemma match_all_token_cons prev c s :
  let p := if is_space c then is_space else fun d => negb (is_space d) in
  match_all re_token 0 prev (c :: s) =
  (c :: take_while p s) :: match_all re_token 0 (Some c) (drop_while p s).
Proof.
  intros p. cbn [match_all]. rewrite re_token_cons. fold p.
  assert (Hlen : length (c :: s) - length (drop_while p s)
                 = S (length (take_while p s))).
  { pose proof (f_equal (@length N) (take_drop_while p s)) as E.
    rewrite length_app in E. cbn [length]. lia. }
  rewrite Hlen. cbn [firstn Nat.sub]. rewrite Nat.sub_0_r. f_equal.
  - f_equal. apply firstn_take_while.
  - pose proof (match_all_skip_token (take_while p s) (Some c) (Some c)
                  (drop_while p s)) as H.
    now rewrite take_drop_while in H.
Qed.

Lemma word_tokenize_spec_space c s :
  is_space c = true ->
  word_tokenize_spec (c :: s) = word_tokenize_spec (drop_while is_space s).
Proof.
  intros Hc. simpl. rewrite Hc. clear c Hc.
  induction s as [|c s IH]; [reflexivity|].
  cbn [drop_while]. destruct (is_space c) eqn:E; [|reflexivity].
  simpl. now rewrite E.
Qed.

Lemma word_tokenize_spec_cons2 c d s :
  is_space c = false -> is_space d = false ->
  word_tokenize_spec (c :: d :: s) =
  match word_tokenize_spec (d :: s) with
  | w :: ws => (c :: w) :: ws
  | [] => [[c]]
  end.
Proof.
  intros Hc Hd.
  change (word_tokenize_spec (c :: d :: s)) with
    (if is_space c then word_tokenize_spec (d :: s)
     else if is_space d then [c] :: word_tokenize_spec (d :: s)
          else match word_tokenize_spec (d :: s) with
               | w :: ws => (c :: w) :: ws
               | [] => [[c]]
               end).
  now rewrite Hc, Hd.
Qed.

Lemma word_tokenize_spec_word c s :
  is_space c = false ->
  word_tokenize_spec (c :: s) =
  (c :: take_while (fun d => negb (is_space d)) s)
    :: word_tokenize_spec (drop_while (fun d => negb (is_space d)) s).
Proof.
  revert c. induction s as [|d s IH]; intros c Hc.
  - simpl. now rewrite Hc.
  - cbn [take_while drop_while].
    destruct (is_space d) eqn:Ed; cbn [negb].
    + simpl. rewrite Hc, Ed. reflexivity.
    + rewrite (word_tokenize_spec_cons2 c d s Hc Ed), (IH d Ed). reflexivity.
Qed.

(** The words the differ aligns are the maximal non-whitespace runs. *)
Lemma word_tokens_scan s : forall prev,
  filter is_word_token (match_all re_token 0 prev s) = word_tokenize_spec s.
Proof.
  remember (length s) as n eqn:Hn. revert s Hn.
  induction n as [n IH] using lt_wf_ind. intros s Hn prev.
  destruct s as [|c s]; [reflexivity|].
  rewrite match_all_token_cons. cbn [filter].
  destruct (is_space c) eqn:Ec.
  - rewrite is_word_token_spaces
      by (simpl; rewrite Ec; apply take_while_all).
    rewrite (word_tokenize_spec_space c s Ec).
    eapply IH; [|reflexivity].
    subst n. simpl. pose proof (drop_while_length is_space s). lia.
  - rewrite (is_word_token_word c _ Ec), (word_tokenize_spec_word c s Ec).
    f_equal. eapply IH; [|reflexivity].
    subst n. simpl.
    pose proof (drop_while_length (fun d => negb (is_space d)) s). lia.
Qed.

Lemma word_tokens_spec s :
  filter is_word_token (tokenize s) = word_tokenize_spec s.
Proof.
  unfold tokenize. destruct s as [|c s]; [reflexivity|].
  apply word_tokens_scan.
Qed.

Lemma computeDiff_words x y :
  computeDiff x y =
  backtrack (lcsTable (word_tokenize_spec x) (word_tokenize_spec y))
    (word_tokenize_spec x) (word_tokenize_spec y).
Proof. unfold computeDiff. now rewrite !word_tokens_spec. Qed.

(** C1: keeping the equal and delete ops of [computeDiff A B] and reading
    their values gives the word tokens of [A] (its maximal non-whitespace
    runs, in order); keeping the equal and insert ops gives those of [B]. *)
Theorem computeDiff_reconstructs (A B : jsstring) :
  map value (filter keeps_before (computeDiff A B)) = word_tokenize_spec A
  /\ map value (filter keeps_after (computeDiff A B)) = word_tokenize_spec B.
Proof.
  rewrite computeDiff_words. unfold backtrack. split.
  - rewrite backtrack_loop_before by lia.
    rewrite firstn_all. apply app_nil_r.
  - rewrite backtrack_loop_after by lia.
    rewrite firstn_all. apply app_nil_r.
Qed.

(** ** Identical inputs *)

Lemma bt_more_S i : bt_more (S i) (S i) = true.
Proof. reflexivity. Qed.

Lemma bt_equal_same a i : bt_equal a a (S i) (S i) = true.
Proof. unfold bt_equal. simpl. apply str_eqb_refl. Qed.

Lemma backtrack_loop_same dp a : forall i result,
  i <= length a ->
  backtrack_loop dp a a i i result = map (mkOp equal) (firstn i a) ++ result.
Proof.
  induction i as [|i IH]; intros result Hi.
  - now rewrite backtrack_loop_body.
  - rewrite backtrack_loop_body, bt_more_S, bt_equal_same.
    replace (S i - 1) with i by lia.
    rewrite IH by lia.
    rewrite (firstn_pred_snoc a (S i)) by lia.
    replace (S i - 1) with i by lia.
    rewrite map_app, <- app_assoc. reflexivity.
Qed.

(** C3: [computeDiff S S] holds only equal ops, and their values are the word
    tokens of [S] (its maximal non-whitespace runs, in order). *)
Theorem computeDiff_same (S : jsstring) :
  Forall (fun o => type o = equal) (computeDiff S S)
  /\ map value (computeDiff S S) = word_tokenize_spec S.
Proof.
  rewrite computeDiff_words. unfold backtrack.
  rewrite backtrack_loop_same by lia.
  rewrite firstn_all, app_nil_r. split.
  - apply Forall_forall. intros o Ho.
    apply in_map_iff in Ho as (w & <- & _). reflexivity.
  - rewrite map_map. simpl. apply map_id.
Qed.

(** ** The table of [lcsTable] is the standard one *)

Lemma upd_length {A} k (v : A) l : length (upd k v l) = length l.
Proof.
  revert k. induction l as [|x l IH]; intros [|k]; simpl; auto.
Qed.

Lemma nth_upd_same {A} k (v d : A) l : k < length l -> nth k (upd k v l) d = v.
Proof.
  revert k. induction l as [|x l IH]; intros [|k] H; simpl in *; try lia; auto.
  apply IH. lia.
Qed.

Lemma nth_upd_other {A} k k' (v d : A) l : k <> k' -> nth k' (upd k v l) d = nth k' l d.
Proof.
  revert k k'. induction l as [|x l IH]; intros [|k] [|k'] H; simpl; auto.
  congruence.
Qed.

Lemma shape_init m n : shape m n (repeat (repeat 0 (n + 1)) (m + 1)).
Proof.
  split; [apply repeat_length|]. intros i Hi.
  rewrite nth_repeat_lt by lia. apply repeat_length.
Qed.

Lemma dp_get_init m n i j : dp_get (repeat (repeat 0 (n + 1)) (m + 1)) i j = 0.
Proof.
  unfold dp_get.
  destruct (Nat.lt_ge_cases i (m + 1)) as [Hi|Hi].
  - rewrite nth_repeat_lt by lia.
    destruct (Nat.lt_ge_cases j (n + 1)) as [Hj|Hj].
    + now rewrite nth_repeat_lt by lia.
    + apply nth_overflow. rewrite repeat_length. lia.
  - rewrite (nth_overflow (repeat _ _) []) by (rewrite repeat_length; lia).
    now destruct j.
Qed.

Lemma shape_set m n dp i j v : shape m n dp -> shape m n (dp_set dp i j v).
Proof.
  intros [Hl Hr]. unfold dp_set. split.
  - now rewrite upd_length.
  - intros i' Hi'. destruct (Nat.eq_dec i i') as [->|Hne].
    + rewrite nth_upd_same by lia. rewrite upd_length. now apply Hr.
    + rewrite nth_upd_other by assumption. now apply Hr.
Qed.

Lemma dp_get_set_same m n dp i j v :
  shape m n dp -> i <= m -> j <= n -> dp_get (dp_set dp i j v) i j = v.
Proof.
  intros [Hl Hr] Hi Hj. unfold dp_get, dp_set.
  rewrite nth_upd_same by lia. apply nth_upd_same. rewrite Hr by lia. lia.
Qed.

Lemma upd_overflow {A} k (v : A) l : length l <= k -> upd k v l = l.
Proof.
  revert k. induction l as [|x l IH]; intros [|k] H; simpl in *; auto; try lia.
  f_equal. apply IH. lia.
Qed.

Lemma dp_get_set_other dp i j v i' j' :
  (i', j') <> (i, j) -> dp_get (dp_set dp i j v) i' j' = dp_get dp i' j'.
Proof.
  intros Hne. unfold dp_get, dp_set.
  destruct (Nat.eq_dec i i') as [->|Hi].
  - destruct (Nat.lt_ge_cases i' (length dp)) as [Hlt|Hge].
    + rewrite nth_upd_same by assumption.
      apply nth_upd_other. congruence.
    + now rewrite upd_overflow by assumption.
  - now rewrite nth_upd_other by assumption.
Qed.

Lemma dp_spec_S a b i j :
  dp_spec a b (S i) (S j) =
  if str_eqb (at_ a i) (at_ b j) then dp_spec a b i j + 1
  else Nat.max (dp_spec a b i (S j)) (dp_spec a b (S i) j).
Proof. reflexivity. Qed.

Lemma dp_spec_0_r a b i : dp_spec a b i 0 = 0.
Proof. now destruct i. Qed.

Lemma fold_left_seq_inv {T} (P : nat -> T -> Prop) (f : T -> nat -> T) len :
  forall start x,
    P start x ->
    (forall k y, start <= k < start + len -> P k y -> P (S k) (f y k)) ->
    P (start + len) (fold_left f (seq start len) x).
Proof.
  induction len as [|len IH]; intros start x Hx Hstep; simpl.
  - now rewrite Nat.add_0_r.
  - rewrite <- Nat.add_succ_comm. apply IH.
    + apply Hstep; [lia | exact Hx].
    + intros k y Hk. apply Hstep. lia.
Qed.

Lemma table_inv_init a b : table_inv a b 1 0 (repeat (repeat 0 (length b + 1)) (length a + 1)).
Proof.
  split; [apply shape_init|]. intros i' j' _ _ H.
  rewrite dp_get_init.
  destruct i' as [|i']; [reflexivity|].
  destruct j' as [|j']; [now rewrite dp_spec_0_r | lia].
Qed.

Lemma lcs_cell_inv a b i j dp :
  1 <= i <= length a -> 1 <= j <= length b ->
  table_inv a b i (j - 1) dp -> table_inv a b i j (lcs_cell a b i dp j).
Proof.
  intros Hi Hj [Hsh Hval].
  destruct i as [|i]; [lia|]. destruct j as [|j]; [lia|].
  assert (Hnew : (if str_eqb (at_ a i) (at_ b j)
                  then dp_get dp i j + 1
                  else Nat.max (dp_get dp i (S j)) (dp_get dp (S i) j))
                 = dp_spec a b (S i) (S j)).
  { rewrite dp_spec_S, !Hval by lia. reflexivity. }
  unfold lcs_cell. replace (S i - 1) with i by lia. replace (S j - 1) with j in * by lia.
  split.
  - destruct (str_eqb (at_ a i) (at_ b j)); now apply shape_set.
  - intros i' j' Hi' Hj' Hk.
    destruct (Nat.eq_dec i' (S i)) as [->|Hne1];
      [destruct (Nat.eq_dec j' (S j)) as [->|Hne2]|].
    + rewrite <- Hnew.
      destruct (str_eqb (at_ a i) (at_ b j));
        now rewrite (dp_get_set_same (length a) (length b)).
    + destruct (str_eqb (at_ a i) (at_ b j));
        (rewrite dp_get_set_other by congruence); apply Hval; lia.
    + destruct (str_eqb (at_ a i) (at_ b j));
        (rewrite dp_get_set_other by congruence); apply Hval; lia.
Qed.

Lemma lcs_row_inv a b i dp :
  1 <= i <= length a ->
  table_inv a b i 0 dp -> table_inv a b (S i) 0 (lcs_row a b dp i).
Proof.
  intros Hi H0. unfold lcs_row.
  assert (H : table_inv a b i (1 + length b - 1)
                (fold_left (lcs_cell a b i) (seq 1 (length b)) dp)).
  { apply (fold_left_seq_inv (fun k dp => table_inv a b i (k - 1) dp)).
    - exact H0.
    - intros k y Hk Hy. replace (S k - 1) with k by lia.
      apply lcs_cell_inv; [lia | lia | exact Hy]. }
  destruct H as [Hsh Hval]. split; [exact Hsh|].
  intros i' j' Hi' Hj' Hk. apply Hval; lia.
Qed.

Lemma lcsTable_inv a b : table_inv a b (1 + length a) 0 (lcsTable a b).
Proof.
  unfold lcsTable.
  apply (fold_left_seq_inv (fun k dp => table_inv a b k 0 dp)).
  - apply table_inv_init.
  - intros k y Hk Hy. apply lcs_row_inv; [lia | exact Hy].
Qed.

(** Every cell of the table built by the two loops is the value of the
    recurrence. *)
Lemma lcsTable_spec a b i j :
  i <= length a -> j <= length b ->
  dp_get (lcsTable a b) i j = dp_spec a b i j.
Proof.
  intros Hi Hj. destruct (lcsTable_inv a b) as [_ H]. apply H; lia.
Qed.

(** The table has [m + 1] rows of [n + 1] cells, so every read and write of
    [lcsTable] and [backtrack] is in range. *)
Lemma lcsTable_shape a b : shape (length a) (length b) (lcsTable a b).
Proof. apply (lcsTable_inv a b). Qed.

(** ** The table holds the lengths of the longest common subsequences *)

Lemma subseq_nil_r c : subseq c [] -> c = [].
Proof. intros H. now inversion H. Qed.

Lemma subseq_snoc_skip c l x : subseq c l -> subseq c (l ++ [x]).
Proof.
  induction 1 as [l|y c l _ IH|y c l _ IH]; simpl;
    [apply subseq_nil | now apply subseq_skip | now apply subseq_take].
Qed.

Lemma subseq_snoc_take c l x : subseq c l -> subseq (c ++ [x]) (l ++ [x]).
Proof.
  induction 1 as [l|y c l _ IH|y c l _ IH]; simpl.
  - induction l as [|y l IH]; simpl.
    + apply subseq_take, subseq_nil.
    + now apply subseq_skip.
  - now apply subseq_skip.
  - now apply subseq_take.
Qed.

Lemma subseq_snoc_inv l x : forall c,
  subseq c (l ++ [x]) ->
  subseq c l \/ exists c', c = c' ++ [x] /\ subseq c' l.
Proof.
  induction l as [|y l IH]; intros c H; simpl in H.
  - inversion H as [|? ? ? H1|? c1 ? H1]; subst.
    + left. apply subseq_nil.
    + apply subseq_nil_r in H1. subst. left. apply subseq_nil.
    + apply subseq_nil_r in H1. subst. right. exists []. split;
        [reflexivity | apply subseq_nil].
  - inversion H as [|? ? ? H1|? c1 ? H1]; subst.
    + left. apply subseq_nil.
    + destruct (IH c H1) as [H2|(c' & -> & H2)].
      * left. now apply subseq_skip.
      * right. exists c'. split; [reflexivity | now apply subseq_skip].
    + destruct (IH c1 H1) as [H2|(c' & -> & H2)].
      * left. now apply subseq_take.
      * right. exists (y :: c'). split; [reflexivity | now apply subseq_take].
Qed.

Lemma subseq_app_l c d l : subseq (c ++ d) l -> subseq c l.
Proof.
  revert c. induction l as [|y l IH]; intros c H.
  - apply subseq_nil_r in H. apply app_eq_nil in H as [-> _]. apply subseq_nil.
  - destruct c as [|z c]; [apply subseq_nil|].
    simpl in H. inversion H; subst.
    + apply subseq_skip. now apply IH.
    + apply subseq_take. now apply IH.
Qed.

Lemma firstn_S_snoc (a : list jsstring) i :
  i < length a -> firstn (S i) a = firstn i a ++ [at_ a i].
Proof.
  intros H. rewrite (firstn_pred_snoc a (S i)) by lia.
  now replace (S i - 1) with i by lia.
Qed.

(** Some common subsequence of the two prefixes has the length in the
    table. *)
Lemma dp_spec_reached a b : forall i j,
  i <= length a -> j <= length b ->
  exists c, subseq c (firstn i a) /\ subseq c (firstn j b)
            /\ length c = dp_spec a b i j.
Proof.
  induction i as [|i IHi]; intros j Hi Hj.
  - exists []. repeat split; apply subseq_nil.
  - induction j as [|j IHj].
    + exists []. repeat split; apply subseq_nil.
    + rewrite dp_spec_S.
      destruct (str_eqb (at_ a i) (at_ b j)) eqn:E.
      * apply str_eqb_eq in E.
        destruct (IHi j) as (c & Ha & Hb & Hl); [lia | lia |].
        exists (c ++ [at_ a i]).
        rewrite (firstn_S_snoc a i), (firstn_S_snoc b j) by lia.
        repeat split.
        -- now apply subseq_snoc_take.
        -- rewrite E. now apply subseq_snoc_take.
        -- rewrite length_app. simpl. lia.
      * destruct (Nat.max_spec (dp_spec a b i (S j)) (dp_spec a b (S i) j))
          as [[_ ->]|[_ ->]].
        -- destruct IHj as (c & Ha & Hb & Hl); [lia|].
           exists c. repeat split; [exact Ha | | exact Hl].
           rewrite (firstn_S_snoc b j) by lia. now apply subseq_snoc_skip.
        -- destruct (IHi (S j)) as (c & Ha & Hb & Hl); [lia | lia |].
           exists c. repeat split; [ | exact Hb | exact Hl].
           rewrite (firstn_S_snoc a i) by lia. now apply subseq_snoc_skip.
Qed.

(** No common subsequence of the two prefixes is longer. *)
Lemma dp_spec_bound a b : forall i j,
  i <= length a -> j <= length b ->
  forall c, subseq c (firstn i a) -> subseq c (firstn j b) ->
            length c <= dp_spec a b i j.
Proof.
  induction i as [|i IHi]; intros j Hi Hj c Ha Hb.
  - simpl in Ha. apply subseq_nil_r in Ha. subst. simpl. lia.
  - revert c Ha Hb. induction j as [|j IHj]; intros c Ha Hb.
    + simpl in Hb. apply subseq_nil_r in Hb. subst. simpl. lia.
    + assert (F1 : subseq c (firstn i a) -> length c <= dp_spec a b i (S j))
        by (intros H; apply (IHi (S j)); [lia | lia | exact H | exact Hb]).
      assert (F2 : subseq c (firstn j b) -> length c <= dp_spec a b (S i) j)
        by (intros H; apply IHj; [lia | exact Ha | exact H]).
      pose proof (IHi j ltac:(lia) ltac:(lia)) as IHd.
      rewrite (firstn_S_snoc a i) in Ha by lia.
      rewrite (firstn_S_snoc b j) in Hb by lia.
      rewrite dp_spec_S.
      apply subseq_snoc_inv in Ha as [Ha|(c1 & E1 & Ha)];
        apply subseq_snoc_inv in Hb as [Hb|(c2 & E2 & Hb)];
        destruct (str_eqb (at_ a i) (at_ b j)) eqn:E;
        try (specialize (F1 Ha); lia); try (specialize (F2 Hb); lia).
      * specialize (IHd c Ha Hb). lia.
      * subst c. apply subseq_app_l in Ha. specialize (IHd c2 Ha Hb).
        rewrite length_app. simpl. lia.
      * subst c. apply subseq_app_l in Hb. specialize (IHd c1 Ha Hb).
        rewrite length_app. simpl. lia.
      * subst c. apply app_inj_tail in E2 as [-> E2].
        specialize (IHd c2 Ha Hb). rewrite length_app. simpl. lia.
      * subst c. apply app_inj_tail in E2 as [_ E2].
        apply str_eqb_eq in E2. congruence.
Qed.

(** ** The backtracking of the specification *)

Lemma bt_insert_spec a b i j :
  i <= length a -> j <= length b ->
  (bt_insert (lcsTable a b) i j = true <->
   0 < j /\ (i = 0 \/ dp_spec a b i (j - 1) >= dp_spec a b (i - 1) j)).
Proof.
  intros Hi Hj. rewrite bt_insert_true.
  rewrite !lcsTable_spec by lia. reflexivity.
Qed.

Lemma bt_step_origin a b r t : ~ bt_step a b (0, 0, r) t.
Proof. intros H. inversion H; lia. Qed.

Lemma bt_step_det a b s t1 t2 : bt_step a b s t1 -> bt_step a b s t2 -> t1 = t2.
Proof.
  intros H1 H2.
  inversion H1; subst; inversion H2; subst; try reflexivity; tauto.
Qed.

Lemma bt_steps_unique a b s r :
  bt_steps a b s (0, 0, r) ->
  forall r', bt_steps a b s (0, 0, r') -> r = r'.
Proof.
  intros H. remember (0, 0, r) as t eqn:Et. revert r Et.
  induction H as [s|s u t Hsu Hut IH]; intros r Et r' H'; subst.
  - inversion H'; subst; [reflexivity|].
    match goal with Hs : bt_step _ _ (0, 0, _) _ |- _ =>
      now apply bt_step_origin in Hs end.
  - inversion H'; subst.
    + now apply bt_step_origin in Hsu.
    + match goal with
      | Hs : bt_step _ _ s ?u', Hr : clos_refl_trans_1n _ _ ?u' _ |- _ =>
          rewrite (bt_step_det a b _ _ _ Hs Hsu) in Hr;
          now apply (IH r eq_refl)
      end.
Qed.

(** The loop of [backtrack] walks the steps of the specification down to
    [(0, 0)]. *)
Lemma backtrack_loop_steps a b i j r :
  i <= length a -> j <= length b ->
  bt_steps a b (i, j, r) (0, 0, backtrack_loop (lcsTable a b) a b i j r).
Proof.
  pattern i, j, r, (backtrack_loop (lcsTable a b) a b i j r).
  apply backtrack_loop_ind; clear i j r.
  - intros r _ _. constructor.
  - intros i j r out Hi Hj Hab IH Hli Hlj.
    econstructor; [now apply bt_step_equal | apply IH; lia].
  - intros i j r out He Hins Hj IH Hli Hlj.
    econstructor; [|apply IH; lia].
    apply bt_insert_spec in Hins as [_ Hins]; [|lia|lia].
    apply bt_step_insert; auto.
    rewrite <- bt_equal_true, He. discriminate.
  - intros i j r out He Hins Hi IH Hli Hlj.
    econstructor; [|apply IH; lia].
    apply bt_step_delete; [lia | |].
    + rewrite <- bt_equal_true, He. discriminate.
    + rewrite <- bt_insert_spec, Hins by lia. discriminate.
Qed.

(** C2: [computeDiff] runs [backtrack] on the words of its two texts, and for
    all word sequences [a] and [b] the edit script of [backtrack] is the one,
    and the only one, that the backtracking of the specification reaches at
    [(0, 0)] when it starts from [(m, n)] with no op, walks the standard LCS
    table and puts every op it emits in front: Equal on a match, else Insert
    when [j > 0] and ([i = 0] or [dp[i][j-1] >= dp[i-1][j]]), else Delete.
    The table of [lcsTable] is that standard table: each cell follows the
    recurrence and is the length of a longest common subsequence of the two
    prefixes. *)
Theorem computeDiff_backtracks_spec (x y : jsstring) (a b : list jsstring) :
  computeDiff x y =
  backtrack (lcsTable (word_tokenize_spec x) (word_tokenize_spec y))
    (word_tokenize_spec x) (word_tokenize_spec y)
  /\ bt_steps a b (length a, length b, []) (0, 0, backtrack (lcsTable a b) a b)
  /\ (forall ops, bt_steps a b (length a, length b, []) (0, 0, ops) ->
                  ops = backtrack (lcsTable a b) a b)
  /\ (forall i j, i <= length a -> j <= length b ->
        dp_get (lcsTable a b) i j = dp_spec a b i j
        /\ (exists c, subseq c (firstn i a) /\ subseq c (firstn j b)
                      /\ length c = dp_spec a b i j)
        /\ (forall c, subseq c (firstn i a) -> subseq c (firstn j b) ->
                      length c <= dp_spec a b i j)).
Proof.
  split; [apply computeDiff_words|]. unfold backtrack.
  assert (H : bt_steps a b (length a, length b, [])
                (0, 0, backtrack_loop (lcsTable a b) a b (length a) (length b) []))
    by (apply backtrack_loop_steps; lia).
  split; [exact H|]. split.
  - intros ops Hops. symmetry. now apply (bt_steps_unique a b _ _ H).
  - intros i j Hi Hj. split; [now apply lcsTable_spec|]. split.
    + now apply dp_spec_reached.
    + now apply dp_spec_bound.
Qed.

(* ===================================================================== *)
(** * Properties of the analyzer *)
(* ===================================================================== *)

(** ** Syllables *)

Lemma re_vowels_cons prev c s :
  re_vowels r_done prev (c :: s) =
  if is_vowel c then Some (drop_while is_vowel s) else None.
Proof.
  unfold re_vowels, r_plus, r_seq, r_class.
  destruct (is_vowel c); [apply r_star_done | reflexivity].
Qed.

(** Outside a match the scan counts the runs still to come; inside one it
    first steps over what is left of the run. *)
Lemma vowel_groups_count s :
  (forall prev, length (match_all re_vowels 0 prev s) = vowel_runs false s)
  /\ (forall prev,
        length (match_all re_vowels (length (take_while is_vowel s)) prev s)
        = vowel_runs true s).
Proof.
  induction s as [|c s [IHout IHin]]; [split; reflexivity|].
  assert (Hout : forall prev,
             length (match_all re_vowels 0 prev (c :: s))
             = vowel_runs false (c :: s)).
  { intros prev. cbn [match_all vowel_runs]. rewrite re_vowels_cons.
    destruct (is_vowel c) eqn:Ec; [|apply IHout].
    assert (Hlen : length (c :: s) - length (drop_while is_vowel s) - 1
                   = length (take_while is_vowel s)).
    { pose proof (f_equal (@length N) (take_drop_while is_vowel s)) as E.
      rewrite length_app in E. cbn [length]. lia. }
    cbn [length] in *. rewrite Hlen, IHin. reflexivity. }
  split; [exact Hout|].
  intros prev. cbn [take_while vowel_runs].
  destruct (is_vowel c) eqn:Ec.
  - cbn [length match_all]. apply IHin.
  - cbn [length]. rewrite Hout. cbn [vowel_runs]. now rewrite Ec.
Qed.

Lemma vowel_groups_length w :
  length (js_match_g re_vowels w) = vowel_runs false w.
Proof. apply vowel_groups_count. Qed.

(** The three endings exclude one another: the last letter is [e], [s] or
    [d]. *)
Lemma endings_exclusive w :
  (endsWith w (lit "e") = true ->
   endsWith w (lit "es") = false /\ endsWith w (lit "ed") = false)
  /\ (endsWith w (lit "es") = true -> endsWith w (lit "ed") = false).
Proof.
  unfold endsWith. destruct (rev w) as [|c t]; [split; discriminate|].
  cbn -[N.eqb]. split.
  - destruct (N.eqb_spec 101 c) as [<-|]; [now split | discriminate].
  - destruct (N.eqb_spec 115 c) as [<-|]; [reflexivity | discriminate].
Qed.

(** The running count of the source and the one-shot formula agree. *)
Lemma syllable_adjust (e le es tes ses ed ted ded : bool) (n : nat) :
  (e = true -> es = false /\ ed = false) ->
  (es = true -> ed = false) ->
  let c1 := if e && negb le && (1 <? n) then n - 1 else n in
  let c2 := if es && negb tes && negb ses && (1 <? c1) then c1 - 1 else c1 in
  let c3 := if ed && negb ted && negb ded && (1 <? c2) then c2 - 1 else c2 in
  c3 = n - (if e && negb le && (1 <? n) then 1 else 0)
         - (if es && negb tes && negb ses && (1 <? n) then 1 else 0)
         - (if ed && negb ted && negb ded && (1 <? n) then 1 else 0).
Proof.
  intros H1 H2.
  destruct e, es, ed;
    try (destruct (H1 eq_refl); discriminate);
    try (specialize (H2 eq_refl); discriminate);
    destruct le, tes, ses, ted, ded; cbn [andb negb];
    repeat match goal with
           | |- context [?x <? ?y] => destruct (Nat.ltb_spec x y)
           end; lia.
Qed.

(** C6 (as the code has it): the estimate is 0 for a word with no letter,
    and for every other word it is the estimate of the specification: 1 for
    at most two letters, else the vowel runs less one for each ending that
    applies while the count exceeds 1, and at least 1. *)
Theorem countSyllables_spec (word : jsstring) :
  countSyllables word =
  if str_empty (stripped word) then 0 else syllables_spec word.
Proof.
  unfold countSyllables, syllables_spec. fold (stripped word).
  set (w := stripped word).
  destruct (str_empty w) eqn:Ew; [reflexivity|].
  destruct (length w <=? 2) eqn:El; [reflexivity|].
  pose proof (vowel_groups_length w) as Hn.
  destruct (endings_exclusive w) as [H1 H2].
  destruct (js_match_g re_vowels w) as [|g gs] eqn:Eg.
  - simpl in Hn. rewrite <- Hn. reflexivity.
  - rewrite <- Hn. f_equal. apply syllable_adjust; assumption.
Qed.

(** The hyphen that [splitWords] extracts from "1-2" has no letter: the
    code estimates 0 syllables where the wording of C6 gives 1. *)
Lemma countSyllables_hyphen_differs :
  countSyllables (lit "-") = 0 /\ syllables_spec (lit "-") = 1
  /\ countSyllables (lit "-") <> syllables_spec (lit "-").
Proof. repeat split. discriminate. Qed.

(** ** Words and syllables *)






Lemma analyzeText_blank text :
  forallb is_space text = true ->
  str_empty text || str_empty (trim text) = true.
Proof.
  intros H. apply trim_nil_iff in H. rewrite H. apply orb_true_r.
Qed.

Lemma analyzeText_not_blank text :
  forallb is_space text = false ->
  str_empty text || str_empty (trim text) = false.
Proof.
  intros H. destruct text as [|c text]; [discriminate|].
  destruct (trim (c :: text)) eqn:E; [|reflexivity].
  apply trim_nil_iff in E. congruence.
Qed.



(** ** Empty and blank inputs *)

Lemma word_tokenize_spec_blank s :
  forallb is_space s = true -> word_tokenize_spec s = [].
Proof.
  induction s as [|c s IH]; [reflexivity|].
  simpl. intros H. apply andb_prop in H as [Hc Hs].
  rewrite Hc. now apply IH.
Qed.

(** C8: on an empty or whitespace-only string [analyzeText] returns the
    metrics with every field 0, and [computeDiff] of two such strings is
    the empty sequence, with empty before and after views. *)
Theorem blank_inputs_degrade (A B : jsstring) :
  forallb is_space A = true ->
  forallb is_space B = true ->
  analyzeText A = mkMetrics 0 0 0 0 0 0 0 0 0
  /\ computeDiff A B = []
  /\ getBeforeView (computeDiff A B) = []
  /\ getAfterView (computeDiff A B) = [].
Proof.
  intros HA HB.
  assert (Hd : computeDiff A B = []).
  { rewrite computeDiff_words.
    rewrite (word_tokenize_spec_blank A HA), (word_tokenize_spec_blank B HB).
    reflexivity. }
  rewrite Hd. repeat split.
  unfold analyzeText. now rewrite (analyzeText_blank A HA).
Qed.

Lemma blank_inputs_degrade_witness :
  forallb is_space (lit "") = true
  /\ forallb is_space [32; 9; 10; 0xA0]%N = true
  /\ analyzeText [32; 9; 10; 0xA0]%N = mkMetrics 0 0 0 0 0 0 0 0 0
  /\ computeDiff [32; 9; 10; 0xA0]%N (lit "") = [].
Proof.
  split; [reflexivity|]. split; [reflexivity|].
  destruct (blank_inputs_degrade [32; 9; 10; 0xA0]%N (lit "")
              eq_refl eq_refl) as (H1 & H2 & _).
  split; assumption.
Defined.

(** ** A text without words *)

Lemma match_all_nil_iff m s : forall prev,
  match_all m 0 prev s = [] <-> no_match m prev s.
Proof.
  induction s as [|c s IH]; intros prev; simpl.
  - destruct (m r_done prev []); split; try tauto; try discriminate.
    intros [H _]. discriminate.
  - destruct (m r_done prev (c :: s)) eqn:E.
    + split; [discriminate | intros [H _]; discriminate].
    + rewrite IH. tauto.
Qed.

Lemma no_match_mono (m1 m2 : matcher) :
  (forall prev s, m1 r_done prev s = None -> m2 r_done prev s = None) ->
  forall s prev, no_match m1 prev s -> no_match m2 prev s.
Proof.
  intros Hm. induction s as [|c s IH]; intros prev [H1 H2]; simpl; split; auto.
Qed.

Lemma space_not_word_unit c : is_space c = true -> is_word_unit c = false.
Proof.
  intros H. apply not_true_is_false. intros H'. revert H H'.
  unfold_classes. intros H H'. class_props H. class_props H'. lia.
Qed.

Lemma space_not_word_char c : is_space c = true -> is_word_char c = false.
Proof.
  intros H. apply not_true_is_false. intros H'. revert H H'.
  unfold_classes. intros H H'. class_props H. class_props H'. lia.
Qed.

Lemma letter_word_unit c : is_letter c = true -> is_word_unit c = true.
Proof. unfold is_word_unit. now intros ->. Qed.

Lemma letter_word_char c : is_letter c = true -> is_word_char c = true.
Proof. unfold is_word_char. now intros ->. Qed.

Lemma canon_cases c :
  (is_lower c = true /\ canon c = (c - 32)%N /\ (97 <= c <= 122)%N)
  \/ (is_lower c = false /\ canon c = c /\ ~ (97 <= c <= 122)%N).
Proof.
  unfold canon, is_lower, in_range.
  destruct (N.leb_spec 97 c), (N.leb_spec c 122); simpl; [left | right ..];
    repeat split; lia.
Qed.

Lemma is_letter_range c :
  is_letter c = true <-> ((65 <= c <= 90)%N \/ (97 <= c <= 122)%N).
Proof.
  unfold is_letter, is_upper, is_lower, in_range.
  rewrite orb_true_iff, !andb_true_iff, !N.leb_le. tauto.
Qed.

Lemma canon_letter c d :
  is_letter c = true -> N.eqb (canon d) (canon c) = true -> is_letter d = true.
Proof.
  intros Hc Hd. apply N.eqb_eq in Hd. apply is_letter_range in Hc.
  apply is_letter_range.
  destruct (canon_cases c) as [(_ & Ec & Rc)|(_ & Ec & Rc)];
    destruct (canon_cases d) as [(_ & Edd & Rd)|(_ & Edd & Rd)];
    rewrite Ec, Edd in Hd; lia.
Qed.

Lemma canon_blank d : N.eqb (canon d) (canon 32) = true -> d = 32%N.
Proof.
  intros Hd. apply N.eqb_eq in Hd. change (canon 32) with 32%N in Hd.
  destruct (canon_cases d) as [(_ & Edd & Rd)|(_ & Edd & Rd)];
    rewrite Edd in Hd; lia.
Qed.

(** Inside a word, a literal of letters and blanks that a whitespace code
    unit follows lets the greedy word class reach a word boundary. *)
Lemma lit_ci_word_run l :
  Forall (fun c => is_letter c = true \/ c = 32%N) l ->
  forall (K : cont) prev s r x,
    is_word_char x = true ->
    (forall p u r', K p u = Some r' ->
                    exists c u', u = c :: u' /\ is_space c = true) ->
    r_lit_ci l K prev s = Some r ->
    r_star is_word_unit (r_wb r_done) (Some x) s <> None.
Proof.
  induction 1 as [|c l Hc Hl IH]; intros K prev s r x Hx HK Hm.
  - simpl in Hm. apply HK in Hm as (c & u & -> & Hsp).
    simpl. rewrite (space_not_word_unit c Hsp).
    unfold r_wb. simpl. rewrite Hx, (space_not_word_char c Hsp). discriminate.
  - simpl in Hm. unfold r_seq, r_class in Hm.
    destruct s as [|d s]; [discriminate|].
    destruct (N.eqb (canon d) (canon c)) eqn:Ed; [|discriminate].
    destruct Hc as [Hc| ->].
    + pose proof (canon_letter c d Hc Ed) as Hd.
      simpl. rewrite (letter_word_unit d Hd).
      specialize (IH K (Some d) s r d (letter_word_char d Hd) HK Hm).
      destruct (r_star is_word_unit (r_wb r_done) (Some d) s);
        [discriminate | congruence].
    + apply canon_blank in Ed. subst d.
      simpl. unfold r_wb. simpl. rewrite Hx. discriminate.
Qed.

Lemma r_alts_some ms (k : cont) prev s r :
  r_alts ms k prev s = Some r -> exists m, In m ms /\ m k prev s = Some r.
Proof.
  induction ms as [|m ms IH]; simpl; [discriminate|].
  unfold r_alt. destruct (m k prev s) eqn:E.
  - intros H. exists m. split; [now left | congruence].
  - intros H. destruct (IH H) as (m' & Hin & Hm').
    exists m'. split; [now right | exact Hm'].
Qed.

(** Every auxiliary starts with a letter and is made of letters and
    blanks. *)
Lemma auxiliaries_shape w :
  In w auxiliaries ->
  exists c l, lit w = c :: l /\ is_letter c = true
              /\ Forall (fun c => is_letter c = true \/ c = 32%N) l.
Proof.
  intros H.
  assert (Hall : forallb aux_shape_ok auxiliaries = true)
    by (vm_compute; reflexivity).
  rewrite forallb_forall in Hall. specialize (Hall w H).
  unfold aux_shape_ok in Hall.
  destruct (lit w) as [|c l]; [discriminate|].
  apply andb_prop in Hall as [Hc Hl].
  exists c, l. repeat split; [exact Hc|].
  apply Forall_forall. intros x Hx.
  rewrite forallb_forall in Hl. specialize (Hl x Hx).
  apply orb_prop in Hl as [Hl|Hl]; [now left | right; now apply N.eqb_eq].
Qed.

(** Where the passive pattern matches, the word pattern matches too. *)
Lemma passive_needs_word prev s :
  re_word r_done prev s = None -> re_passive r_done prev s = None.
Proof.
  intros Hw. destruct (re_passive r_done prev s) as [r|] eqn:E; [|reflexivity].
  exfalso. unfold re_passive, re_word, r_seq in *.
  unfold r_wb at 1 in E. unfold r_wb at 1 in Hw.
  destruct (xorb (is_word_opt prev) (is_word_opt (hd_error s))); [|discriminate].
  apply r_alts_some in E as (m & Hin & Hm).
  apply in_map_iff in Hin as (w & <- & Hin).
  destruct (auxiliaries_shape w Hin) as (c & l & Hlit & Hc & Hl).
  rewrite Hlit in Hm. simpl in Hm. unfold r_seq at 1, r_class at 1 in Hm.
  destruct s as [|d s]; [discriminate|].
  destruct (N.eqb (canon d) (canon c)) eqn:Ed; [|discriminate].
  pose proof (canon_letter c d Hc Ed) as Hd.
  unfold r_plus, r_seq, r_class in Hw. rewrite (letter_word_unit d Hd) in Hw.
  revert Hw. eapply (lit_ci_word_run l Hl); [now apply letter_word_char | | exact Hm].
  intros p u r'. unfold r_plus, r_seq, r_class.
  destruct u as [|c' u']; [discriminate|].
  destruct (is_space c') eqn:Esp; [|discriminate].
  intros _. now exists c', u'.
Qed.

Lemma no_words_no_passive text :
  js_match_g re_word text = [] -> countPassiveVoice text = 0.
Proof.
  unfold countPassiveVoice, js_match_g. intros H.
  apply match_all_nil_iff in H.
  apply (no_match_mono re_word re_passive passive_needs_word) in H.
  apply match_all_nil_iff in H. now rewrite H.
Qed.

(** The pieces of a split hold no more code units than the text. *)
Lemma split_go_sum m s : forall skip cur prev,
  list_sum (map (@length N) (split_go m skip cur prev s))
  <= length cur + length s.
Proof.
  induction s as [|c s IH]; intros skip cur prev; [simpl; lia|].
  cbn [split_go].
  destruct skip as [|n].
  - destruct (m r_done prev (c :: s)) as [rest|].
    + destruct (length (c :: s) - length rest) as [|n].
      * specialize (IH 0 [c] (Some c)).
        destruct cur as [|x cur]; simpl in *; lia.
      * specialize (IH n [] (Some c)). simpl in *. lia.
    + specialize (IH 0 (cur ++ [c]) (Some c)).
      rewrite length_app in IH. cbn [length] in *. lia.
  - specialize (IH n cur (Some c)). cbn [length]. lia.
Qed.

Lemma nonblank_pieces_count l :
  length (filter (fun s => 0 <? length (trim s)) l)
  <= list_sum (map (@length N) l).
Proof.
  induction l as [|x l IH]; simpl; [lia|].
  destruct x as [|c x]; simpl; [lia|].
  destruct (0 <? length (trim (c :: x))); simpl; lia.
Qed.

Lemma splitSentences_length text : length (splitSentences text) <= length text.
Proof.
  unfold splitSentences. destruct (str_empty (trim text)); [simpl; lia|].
  etransitivity; [apply nonblank_pieces_count|].
  unfold js_split. apply (split_go_sum re_sentence_end text 0 [] None).
Qed.

(** ** Integers below 2^53 as floats *)

Lemma digits2_pos_bound p n :
  (0 <= n)%Z -> (Zpos p < 2 ^ n)%Z -> (Zpos (SpecFloat.digits2_pos p) <= n)%Z.
Proof.
  revert n. induction p as [p IH|p IH|]; intros n Hn H; simpl.
  - assert (0 < n)%Z
      by (destruct (Z.eq_dec n 0) as [->|]; [simpl in H; lia | lia]).
    replace n with (Z.succ (n - 1)) in H by lia.
    rewrite Z.pow_succ_r in H by lia. specialize (IH (n - 1)%Z). lia.
  - assert (0 < n)%Z
      by (destruct (Z.eq_dec n 0) as [->|]; [simpl in H; lia | lia]).
    replace n with (Z.succ (n - 1)) in H by lia.
    rewrite Z.pow_succ_r in H by lia. specialize (IH (n - 1)%Z). lia.
  - destruct (Z.eq_dec n 0) as [->|]; [simpl in H; lia | lia].
Qed.

Lemma digits2_pos_iter_xO p k :
  SpecFloat.digits2_pos (Pos.iter xO p k) = (SpecFloat.digits2_pos p + k)%positive.
Proof.
  induction k using Pos.peano_ind.
  - simpl. lia.
  - rewrite Pos.iter_succ. simpl. rewrite IHk. lia.
Qed.

(** A mantissa of 53 bits with an exponent in range needs no rounding. *)
Lemma binary_round_aux_exact m e :
  SpecFloat.digits2_pos m = 53%positive -> (-1074 <= e <= 971)%Z ->
  SpecFloat.binary_round_aux prec emax false (Zpos m) e SpecFloat.loc_Exact
  = S754_finite false m e.
Proof.
  intros Hd He.
  assert (Hn : (SpecFloat.fexp prec emax (SpecFloat.Zdigits2 (Zpos m) + e) - e
                = 0)%Z).
  { unfold SpecFloat.fexp, SpecFloat.emin, prec, emax.
    simpl SpecFloat.Zdigits2. rewrite Hd. lia. }
  unfold SpecFloat.binary_round_aux, SpecFloat.shr_fexp.
  rewrite Hn. cbn [SpecFloat.shr SpecFloat.shr_record_of_loc SpecFloat.shr_m
                   SpecFloat.loc_of_shr_record SpecFloat.round_nearest_even].
  rewrite Hn. cbn [SpecFloat.shr SpecFloat.shr_record_of_loc SpecFloat.shr_m].
  unfold prec, emax. destruct (Z.leb_spec e (1024 - 53)); [reflexivity | lia].
Qed.

(** A positive integer below 2^53 is a finite positive float. *)
Lemma binary_normalize_small p :
  (Zpos p < 2 ^ 53)%Z ->
  exists m e,
    SpecFloat.binary_normalize prec emax (Zpos p) 0 false
    = S754_finite false m e.
Proof.
  intros H.
  pose proof (digits2_pos_bound p 53 ltac:(lia) H) as Hd.
  unfold SpecFloat.binary_normalize, SpecFloat.binary_round.
  assert (Hf : (SpecFloat.fexp prec emax (Zpos (SpecFloat.digits2_pos p) + 0)
                = Zpos (SpecFloat.digits2_pos p) - 53)%Z).
  { unfold SpecFloat.fexp, SpecFloat.emin, prec, emax. lia. }
  rewrite Hf. unfold SpecFloat.shl_align.
  destruct (Zpos (SpecFloat.digits2_pos p) - 53 - 0)%Z as [|q|q] eqn:E;
    try lia.
  - eexists. eexists. apply binary_round_aux_exact; lia.
  - eexists. eexists. apply binary_round_aux_exact; [|lia].
    rewrite digits2_pos_iter_xO. lia.
Qed.

(** [0 / n] is [0] for a count [n] from 1 to below 2^53. *)
Lemma zero_div_count (n : nat) :
  1 <= n -> (Z.of_nat n < 2 ^ 53)%Z ->
  (0 / nat_to_float n)%float = 0%float.
Proof.
  intros Hn Hb. unfold nat_to_float.
  apply Prim2SF_inj. rewrite div_spec, of_uint63_spec.
  rewrite Uint63.of_Z_spec, Z.mod_small.
  2:{ change Uint63.wB with (2 ^ 63)%Z. split; [lia|].
      apply Z.lt_trans with (2 ^ 53)%Z; [lia | reflexivity]. }
  destruct (Z.of_nat n) as [|p|p] eqn:E; try lia.
  destruct (binary_normalize_small p) as (m & e & ->); [lia|].
  reflexivity.
Qed.

(** C9 (as the code has it): a text with a non-whitespace code unit but no
    match of the word pattern has [wordCount] 0, a [sentenceCount] that is
    the number of its non-blank sentence pieces and at least 1, and 0 in
    every other field. *)
Theorem analyzeText_no_words (text : jsstring) :
  forallb is_space text = false ->
  js_match_g re_word text = [] ->
  (Z.of_nat (length text) < 2 ^ 53)%Z ->
  analyzeText text =
  mkMetrics 0 (Nat.max (length (splitSentences text)) 1) 0 0 0 0 0 0 0
  /\ 1 <= sentenceCount (analyzeText text).
Proof.
  intros Hns Hnw Hlen.
  assert (Hw : splitWords text = []).
  { unfold splitWords. now destruct (str_empty (trim text)). }
  assert (Hp : countPassiveVoice text = 0) by now apply no_words_no_passive.
  assert (Ha : countAdverbs text = 0)
    by (unfold countAdverbs; now rewrite Hw).
  assert (Hdiv : (nat_to_float 0
                  / nat_to_float (Nat.max (length (splitSentences text)) 1))%float
                 = 0%float).
  { change (nat_to_float 0) with 0%float. apply zero_div_count; [lia|].
    pose proof (splitSentences_length text). lia. }
  assert (E : analyzeText text =
              mkMetrics 0 (Nat.max (length (splitSentences text)) 1)
                0 0 0 0 0 0 0).
  { unfold analyzeText. rewrite (analyzeText_not_blank text Hns).
    rewrite Hw, Hp, Ha. cbn [length fold_left Nat.ltb Nat.leb].
    rewrite Hdiv. reflexivity. }
  split; [exact E|]. rewrite E. cbn [sentenceCount]. lia.
Qed.

Lemma analyzeText_no_words_witness :
  forallb is_space (lit "...") = false
  /\ js_match_g re_word (lit "...") = []
  /\ (Z.of_nat (length (lit "...")) < 2 ^ 53)%Z
  /\ analyzeText (lit "...") = mkMetrics 0 1 0 0 0 0 0 0 0.
Proof.
  split; [reflexivity|]. split; [reflexivity|].
  split; [vm_compute; reflexivity|].
  apply (analyzeText_no_words (lit "...")); [reflexivity | reflexivity |].
  vm_compute. reflexivity.
Defined.

(** "1. 2. 3" has no word but three sentence pieces. *)
Lemma analyzeText_numbered_list :
  forallb is_space (lit "1. 2. 3") = false
  /\ js_match_g re_word (lit "1. 2. 3") = []
  /\ sentenceCount (analyzeText (lit "1. 2. 3")) = 3
  /\ analyzeText (lit "1. 2. 3") <> mkMetrics 0 1 0 0 0 0 0 0 0.
Proof.
  repeat split. intros H. apply (f_equal sentenceCount) in H.
  vm_compute in H. discriminate.
Qed.

(* ===================================================================== *)
(** * Properties of the scorer *)
(* ===================================================================== *)

(** C7: with a zero [wordCount] on either side the improvement score is 0. *)
Theorem score_zero_words (b a : Metrics) :
  wordCount b = 0 \/ wordCount a = 0 ->
  calculateImprovementScore b a = 0%float.
Proof.
  intros [H|H]; unfold calculateImprovementScore; rewrite H;
    [reflexivity | now rewrite orb_true_r].
Qed.

Lemma score_zero_words_witness :
  (wordCount (analyzeText (lit "Cat.")) = 0
   \/ wordCount (analyzeText (lit "  ")) = 0)
  /\ calculateImprovementScore (analyzeText (lit "Cat."))
       (analyzeText (lit "  ")) = 0%float.
Proof.
  split; [right; reflexivity|].
  apply (score_zero_words (analyzeText (lit "Cat.")) (analyzeText (lit "  "))).
  right. reflexivity.
Defined.

(** A float that compares equal to 0 (that is, +0 or -0) is not above 0. *)
Lemma float_zero_not_pos (x : float) :
  (x =? 0)%float = true -> (0 <? x)%float = false.
Proof.
  rewrite FloatAxioms.eqb_spec, FloatAxioms.ltb_spec.
  destruct (Prim2SF x) as [sx|sx| |sx mx ex]; cbn; try discriminate; auto.
  all: destruct sx; cbn; auto; discriminate.
Qed.

Lemma score_readingEase_skip b a t :
  (fleschReadingEase b =? 0)%float = true -> score_readingEase b a t = t.
Proof. intros H. unfold score_readingEase. now rewrite float_zero_not_pos. Qed.

Lemma score_grade_skip b a t :
  (fleschKincaidGrade b =? 0)%float = true -> score_grade b a t = t.
Proof. intros H. unfold score_grade. now rewrite float_zero_not_pos. Qed.

Lemma score_sentenceLength_skip b a t :
  (avgSentenceLength b =? 0)%float = true -> score_sentenceLength b a t = t.
Proof. intros H. unfold score_sentenceLength. now rewrite float_zero_not_pos. Qed.

Lemma score_passive_from_zero b a t :
  passiveVoiceCount b = 0 ->
  score_passive b a t =
  if 0 <? passiveVoiceCount a then (t - 0.15 * 0.5)%float else (t + 0)%float.
Proof.
  intros H. unfold score_passive. rewrite H. cbn [Nat.ltb Nat.leb].
  now destruct (passiveVoiceCount a).
Qed.

Lemma score_adverbs_from_zero b a t :
  adverbCount b = 0 ->
  score_adverbs b a t =
  if 0 <? adverbCount a then (t - 0.10 * 0.5)%float else t.
Proof. intros H. unfold score_adverbs. now rewrite H. Qed.

(** Adding 0 changes no float but -0. *)
Lemma float_add_zero (t : float) : t <> (-0)%float -> (t + 0)%float = t.
Proof.
  intros Ht. apply Prim2SF_inj. rewrite add_spec.
  destruct (Prim2SF t) as [[|]| | |] eqn:E; try reflexivity.
  exfalso. apply Ht. rewrite <- (SF2Prim_Prim2SF t), E. reflexivity.
Qed.

Lemma score_past_guard b a :
  wordCount b <> 0 -> wordCount a <> 0 ->
  calculateImprovementScore b a = js_round (totalScore b a * 100)%float.
Proof.
  intros Hb Ha. unfold calculateImprovementScore.
  apply Nat.eqb_neq in Hb, Ha. now rewrite Hb, Ha.
Qed.

(** With 0 in all five before values only the two penalties are left. *)
Lemma score_from_nothing b a :
  wordCount b <> 0 -> wordCount a <> 0 ->
  (fleschReadingEase b =? 0)%float = true ->
  (fleschKincaidGrade b =? 0)%float = true ->
  (avgSentenceLength b =? 0)%float = true ->
  passiveVoiceCount b = 0 -> adverbCount b = 0 ->
  calculateImprovementScore b a =
  match passiveVoiceCount a, adverbCount a with
  | 0, 0 => 0
  | 0, S _ => -5
  | S _, 0 => -7
  | S _, S _ => -12
  end%float.
Proof.
  intros Hb Ha H1 H2 H3 H4 H5.
  rewrite score_past_guard by assumption. unfold totalScore.
  rewrite score_readingEase_skip, score_grade_skip, score_sentenceLength_skip,
    score_passive_from_zero, score_adverbs_from_zero by assumption.
  destruct (passiveVoiceCount a), (adverbCount a); reflexivity.
Qed.

(** C4: past the zero-word guard the score is [round(totalScore * 100)],
    where [totalScore] starts at 0 and goes through the five blocks in the
    order of the source.  A block whose before value is 0 leaves
    [totalScore] as it is (for the passive count with nothing on either
    side the source adds 0, which changes no total but -0), except that a
    passive or adverb count rising from 0 takes [weight * 0.5] off
    [totalScore], 0.15 * 0.5 and 0.10 * 0.5, and that is the total which is
    rounded: with 0 in all five before values the score is 0, -5, -7 or
    -12. *)
Theorem score_zero_before_terms (b a : Metrics) :
  wordCount b <> 0 -> wordCount a <> 0 ->
  calculateImprovementScore b a
  = js_round
      (score_adverbs b a
         (score_passive b a
            (score_sentenceLength b a
               (score_grade b a
                  (score_readingEase b a 0)))) * 100)%float
  /\ (forall t, (fleschReadingEase b =? 0)%float = true ->
                score_readingEase b a t = t)
  /\ (forall t, (fleschKincaidGrade b =? 0)%float = true ->
                score_grade b a t = t)
  /\ (forall t, (avgSentenceLength b =? 0)%float = true ->
                score_sentenceLength b a t = t)
  /\ (forall t, passiveVoiceCount b = 0 ->
                score_passive b a t =
                if 0 <? passiveVoiceCount a then (t - 0.15 * 0.5)%float
                else (t + 0)%float)
  /\ (forall t, t <> (-0)%float -> (t + 0)%float = t)
  /\ (forall t, adverbCount b = 0 ->
                score_adverbs b a t =
                if 0 <? adverbCount a then (t - 0.10 * 0.5)%float else t)
  /\ (passiveVoiceCount b = 0 -> 0 < passiveVoiceCount a ->
      calculateImprovementScore b a
      = js_round
          (score_adverbs b a
             (score_sentenceLength b a
                (score_grade b a
                   (score_readingEase b a 0)) - 0.15 * 0.5) * 100)%float)
  /\ (adverbCount b = 0 -> 0 < adverbCount a ->
      calculateImprovementScore b a
      = js_round
          ((score_passive b a
              (score_sentenceLength b a
                 (score_grade b a
                    (score_readingEase b a 0))) - 0.10 * 0.5) * 100)%float)
  /\ ((fleschReadingEase b =? 0)%float = true ->
      (fleschKincaidGrade b =? 0)%float = true ->
      (avgSentenceLength b =? 0)%float = true ->
      passiveVoiceCount b = 0 -> adverbCount b = 0 ->
      calculateImprovementScore b a =
      match passiveVoiceCount a, adverbCount a with
      | 0, 0 => 0
      | 0, S _ => -5
      | S _, 0 => -7
      | S _, S _ => -12
      end%float).
Proof.
  intros Hb Ha.
  pose proof (score_past_guard b a Hb Ha) as G. unfold totalScore in G.
  split; [exact G|].
  split; [intros t; apply score_readingEase_skip|].
  split; [intros t; apply score_grade_skip|].
  split; [intros t; apply score_sentenceLength_skip|].
  split; [intros t; apply score_passive_from_zero|].
  split; [exact float_add_zero|].
  split; [intros t; apply score_adverbs_from_zero|].
  split; [|split].
  - intros H0 Hpos. rewrite G, (score_passive_from_zero b a _ H0).
    apply Nat.ltb_lt in Hpos. now rewrite Hpos.
  - intros H0 Hpos. rewrite G, (score_adverbs_from_zero b a _ H0).
    apply Nat.ltb_lt in Hpos. now rewrite Hpos.
  - now apply score_from_nothing.
Qed.

Lemma score_zero_before_terms_witness :
  wordCount (analyzeText (lit "Cat.")) <> 0
  /\ wordCount (analyzeText (lit "It was taken quickly.")) <> 0
  /\ calculateImprovementScore (analyzeText (lit "Cat."))
       (analyzeText (lit "It was taken quickly.")) = (-80)%float
  /\ score_adverbs (analyzeText (lit "Cat."))
       (analyzeText (lit "It was taken quickly.")) 0%float
     = (0 - 0.10 * 0.5)%float.
Proof.
  assert (Hb : wordCount (analyzeText (lit "Cat.")) <> 0)
    by (vm_compute; discriminate).
  assert (Ha : wordCount (analyzeText (lit "It was taken quickly.")) <> 0)
    by (vm_compute; discriminate).
  destruct (score_zero_before_terms _ _ Hb Ha)
    as (H1 & _ & _ & _ & _ & _ & H6 & _).
  split; [exact Hb|]. split; [exact Ha|]. split.
  - rewrite H1. vm_compute. reflexivity.
  - apply (H6 0%float). reflexivity.
Defined.

(** ** The summary *)

Lemma starts_with_app p q : starts_with p (p ++ q) = true.
Proof.
  induction p as [|c p IH]; simpl; [reflexivity|].
  now rewrite N.eqb_refl.
Qed.

Lemma endsWith_app body suffix : endsWith (body ++ suffix) suffix = true.
Proof. unfold endsWith. rewrite rev_app_distr. apply starts_with_app. Qed.

(** C5 (as the code has it): with words on both sides and at least one
    observation, the summary ends with the closing remark that the score
    selects among three (above 5, below -5, otherwise), then the tip exactly
    when the average sentence length of the after text is above 20; with no
    observation the summary is one fixed sentence, with no closing remark
    and no tip. *)
Theorem summary_closing_and_tip (num_str : float -> jsstring)
  (b a : Metrics) (score : float) :
  wordCount b <> 0 -> wordCount a <> 0 ->
  (observations num_str b a <> [] ->
   exists body,
     generateSummary num_str b a score =
     body
     ++ (if (5 <? score)%float then
           lit " Overall, this is a stronger version for a wider audience."
         else if (score <? -5)%float then
           lit " Consider simplifying sentences and using more direct language."
         else lit " The readability is roughly the same as the original.")
     ++ (if (20 <? avgSentenceLength a)%float then
           lit " Tip: Your average sentence is "
             ++ num_str (avgSentenceLength a)
             ++ lit " words. Consider breaking up sentences longer than 20 words."
         else []))
  /\ (observations num_str b a = [] ->
      generateSummary num_str b a score =
      lit "The two versions are very similar in readability. The differences are minimal.").
Proof.
  intros Hb Ha. apply Nat.eqb_neq in Hb, Ha.
  unfold generateSummary. rewrite Hb, Ha. cbn [orb]. split.
  - intros Hobs. exists (build_summary (observations num_str b a)).
    destruct (observations num_str b a) as [|o obs]; [congruence|].
    reflexivity.
  - intros ->. reflexivity.
Qed.

Lemma summary_closing_and_tip_witness :
  let b := analyzeText (lit "The report was written quickly. The plan was approved.") in
  let a := analyzeText (lit "We wrote the report.") in
  wordCount b <> 0 /\ wordCount a <> 0
  /\ observations number_text b a <> []
  /\ exists body,
       generateSummary number_text b a (calculateImprovementScore b a) =
       body ++ lit " Overall, this is a stronger version for a wider audience.".
Proof.
  intros b a.
  assert (Hb : wordCount b <> 0) by (vm_compute; discriminate).
  assert (Ha : wordCount a <> 0) by (vm_compute; discriminate).
  assert (Ho : observations number_text b a <> []) by (vm_compute; discriminate).
  destruct (summary_closing_and_tip number_text b a
              (calculateImprovementScore b a) Hb Ha) as [H _].
  destruct (H Ho) as [body Hbody].
  split; [exact Hb|]. split; [exact Ha|]. split; [exact Ho|].
  exists body. rewrite Hbody. f_equal.
Defined.

(** The summary of that example, in full. *)
Example summary_example :
  let b := analyzeText (lit "The report was written quickly. The plan was approved.") in
  let a := analyzeText (lit "We wrote the report.") in
  generateSummary number_text b a (calculateImprovementScore b a) =
  lit "Easier to read (grade level dropped from 3.2 to 0.7) and uses more active voice. Overall, this is a stronger version for a wider audience.".
Proof. vm_compute. reflexivity. Qed.

(** Two identical texts: no observation, and the summary ends with none of
    the closing remarks. *)
Lemma summary_similar_no_closing :
  let m := analyzeText (lit "Cat.") in
  let score := calculateImprovementScore m m in
  wordCount m <> 0
  /\ generateSummary number_text m m score =
     lit "The two versions are very similar in readability. The differences are minimal."
  /\ ~ (exists body,
          generateSummary number_text m m score =
          body ++ recommendation score ++ tip number_text m).
Proof.
  intros m score. split; [vm_compute; discriminate|]. split; [reflexivity|].
  intros [body H].
  apply (f_equal (fun s => endsWith s (recommendation score ++ tip number_text m))) in H.
  rewrite endsWith_app in H. vm_compute in H. discriminate.
Qed.

(* ===================================================================== *)
(** * The examples of the specification *)
(* ===================================================================== *)

Example diff_of_empty_texts : computeDiff (lit "") (lit "") = [].
Proof. reflexivity. Qed.

Example diff_to_empty_text :
  computeDiff (lit "a b") (lit "")
  = [mkOp delete (lit "a"); mkOp delete (lit "b")].
Proof. reflexivity. Qed.

Example diff_from_empty_text :
  computeDiff (lit "") (lit "a b")
  = [mkOp insert (lit "a"); mkOp insert (lit "b")].
Proof. reflexivity. Qed.

(** On a tie between the two neighbours of the table the Insert is taken
    first, so it comes last in the script. *)
Example diff_tie_break :
  computeDiff (lit "a b") (lit "b a")
  = [mkOp delete (lit "a"); mkOp equal (lit "b"); mkOp insert (lit "a")].
Proof. reflexivity. Qed.

Example analyze_cat :
  analyzeText (lit "Cat.") = mkMetrics 1 1 1 0 100 0 0 0 1.
Proof. vm_compute. reflexivity. Qed.

Example analyze_revision :
  let b := analyzeText
             (lit "It should be noted that our approach is fundamentally different.") in
  let a := analyzeText (lit "Our approach is different.") in
  b = mkMetrics 10 1 10 9.6 44.4 3 0 1 18
  /\ a = mkMetrics 4 1 4 6.6 54.7 1 0 0 7
  /\ calculateImprovementScore b a = 37%float
  /\ generateSummary number_text b a (calculateImprovementScore b a)
     = lit "Easier to read (grade level dropped from 9.6 to 6.6) and uses shorter sentences. Overall, this is a stronger version for a wider audience.".
Proof. vm_compute. repeat split. Qed.

(* ===================================================================== *)
(** * Further properties of the differ *)
(* ===================================================================== *)

(** ** The tokens *)

Lemma drop_while_head p s d t : drop_while p s = d :: t -> p d = false.
Proof.
  induction s as [|c s IH]; simpl; [discriminate|].
  destruct (p c) eqn:E; [exact IH|]. intros H. injection H as -> _. exact E.
Qed.

Lemma token_scan_shape n : forall s prev,
  length s <= n ->
  concat (match_all re_token 0 prev s) = s
  /\ Forall (fun t => t <> []
                      /\ (forallb is_space t = true
                          \/ forallb (fun c => negb (is_space c)) t = true))
       (match_all re_token 0 prev s)
  /\ alternating (match_all re_token 0 prev s)
  /\ (forall c s', s = c :: s' ->
        exists t ts, match_all re_token 0 prev s = (c :: t) :: ts).
Proof.
  induction n as [|n IH]; intros s prev Hn.
  - destruct s; [|simpl in Hn; lia]. repeat split; [constructor | discriminate].
  - destruct s as [|c s]; [repeat split; [constructor | discriminate]|].
    rewrite match_all_token_cons.
    set (p := if is_space c then is_space else fun d => negb (is_space d)).
    assert (Hp : p c = true) by (unfold p; destruct (is_space c) eqn:E;
                                 [exact E | now rewrite E]).
    pose proof (drop_while_length p s) as Hd. simpl in Hn.
    destruct (IH (drop_while p s) (Some c)) as (Hc & Hf & Ha & Hh); [lia|].
    split; [|split; [|split]].
    + simpl. rewrite Hc. f_equal. apply take_drop_while.
    + constructor; [|exact Hf]. split; [discriminate|].
      pose proof (take_while_all p s) as Ht.
      unfold p in *. destruct (is_space c) eqn:E.
      * left. simpl. now rewrite E.
      * right. simpl. now rewrite E.
    + destruct (drop_while p s) as [|d rest] eqn:Ed; [exact I|].
      destruct (Hh d rest eq_refl) as (t & ts & Et).
      rewrite Et in *. split; [|exact Ha].
      apply drop_while_head in Ed. simpl.
      unfold p in Ed. destruct (is_space c) eqn:E.
      * rewrite Ed. discriminate.
      * apply negb_false_iff in Ed. rewrite Ed. discriminate.
    + intros c' s' H. injection H as <- <-. eauto.
Qed.

(** The tokens of [tokenize] partition the text: joined, they give it back;
    none is empty; each is all whitespace or free of whitespace; and the two
    kinds take turns, so each token is a maximal run. *)
Theorem tokenize_partition (s : jsstring) :
  concat (tokenize s) = s
  /\ Forall (fun t => t <> []
                      /\ (forallb is_space t = true
                          \/ forallb (fun c => negb (is_space c)) t = true))
       (tokenize s)
  /\ alternating (tokenize s).
Proof.
  unfold tokenize. destruct s as [|c s]; [repeat split; constructor|].
  cbn [str_empty]. unfold js_match_g.
  destruct (token_scan_shape (length (c :: s)) (c :: s) None (le_n _))
    as (H1 & H2 & H3 & _).
  repeat split; assumption.
Qed.

(** ** The edit script is a shortest one *)

Lemma diff_before_words x y :
  map value (filter keeps_before (computeDiff x y)) = word_tokenize_spec x.
Proof.
  rewrite computeDiff_words. unfold backtrack.
  rewrite backtrack_loop_before by lia. rewrite firstn_all. apply app_nil_r.
Qed.

Lemma diff_after_words x y :
  map value (filter keeps_after (computeDiff x y)) = word_tokenize_spec y.
Proof.
  rewrite computeDiff_words. unfold backtrack.
  rewrite backtrack_loop_after by lia. rewrite firstn_all. apply app_nil_r.
Qed.

Lemma equal_ops_loop a b i j r :
  i <= length a -> j <= length b ->
  length (filter is_equal_op (backtrack_loop (lcsTable a b) a b i j r))
  = dp_spec a b i j + length (filter is_equal_op r).
Proof.
  pattern i, j, r, (backtrack_loop (lcsTable a b) a b i j r).
  apply backtrack_loop_ind; clear i j r.
  - intros r _ _. reflexivity.
  - intros i j r out Hi Hj Hab IH Hli Hlj. rewrite IH by lia.
    destruct i as [|i]; [lia|]. destruct j as [|j]; [lia|].
    rewrite dp_spec_S. cbn [Nat.sub] in *. rewrite !Nat.sub_0_r in *.
    apply str_eqb_eq in Hab. rewrite Hab. simpl. lia.
  - intros i j r out He Hins Hj IH Hli Hlj. rewrite IH by lia.
    apply bt_insert_spec in Hins as [_ Hins]; [|lia|lia].
    cbn [filter is_equal_op type optype_eqb].
    destruct j as [|j]; [lia|]. cbn [Nat.sub] in *. rewrite !Nat.sub_0_r in *.
    destruct i as [|i]; [reflexivity|].
    rewrite dp_spec_S. cbn [Nat.sub] in *. rewrite !Nat.sub_0_r in *.
    unfold bt_equal in He. cbn [Nat.ltb Nat.leb andb Nat.sub] in He.
    rewrite !Nat.sub_0_r in He. rewrite He.
    destruct Hins as [Hins|Hins]; [discriminate|]. lia.
  - intros i j r out He Hins Hi IH Hli Hlj. rewrite IH by lia.
    cbn [filter is_equal_op type optype_eqb].
    destruct i as [|i]; [lia|]. cbn [Nat.sub] in *. rewrite !Nat.sub_0_r in *.
    destruct j as [|j]; [now rewrite !dp_spec_0_r|].
    rewrite dp_spec_S.
    unfold bt_equal in He. cbn [Nat.ltb Nat.leb andb Nat.sub] in He.
    rewrite !Nat.sub_0_r in He. rewrite He.
    assert (Hn : ~ (0 < S j /\ (S i = 0 \/
                   dp_spec a b (S i) (S j - 1) >= dp_spec a b (S i - 1) (S j)))).
    { rewrite <- bt_insert_spec by lia. rewrite Hins. discriminate. }
    cbn [Nat.sub] in Hn. rewrite !Nat.sub_0_r in Hn. lia.
Qed.

Lemma kept_words_subseq ops :
  subseq (kept_words ops) (map value (filter keeps_before ops))
  /\ subseq (kept_words ops) (map value (filter keeps_after ops)).
Proof.
  unfold kept_words, keeps_before, keeps_after, is_equal_op.
  induction ops as [|[[] v] ops [IH1 IH2]]; simpl; split;
    try apply subseq_nil; try (now apply subseq_take);
    try (now apply subseq_skip); assumption.
Qed.

(** The words [computeDiff] keeps (its equal ops) are a longest common
    subsequence of the words of the two texts: they are a subsequence of
    both, and no common subsequence is longer. *)
Theorem computeDiff_keeps_longest (x y : jsstring) :
  let kept := kept_words (computeDiff x y) in
  subseq kept (word_tokenize_spec x)
  /\ subseq kept (word_tokenize_spec y)
  /\ forall c, subseq c (word_tokenize_spec x) ->
               subseq c (word_tokenize_spec y) ->
               length c <= length kept.
Proof.
  intros kept.
  destruct (kept_words_subseq (computeDiff x y)) as [H1 H2].
  rewrite (diff_before_words x y) in H1. rewrite (diff_after_words x y) in H2.
  split; [exact H1|]. split; [exact H2|].
  intros c Hcx Hcy. unfold kept, kept_words. rewrite length_map.
  rewrite computeDiff_words. unfold backtrack.
  rewrite equal_ops_loop by lia. simpl. rewrite Nat.add_0_r.
  apply dp_spec_bound; [lia | lia | now rewrite firstn_all ..].
Qed.

Lemma op_counts ops :
  length (filter keeps_before ops)
  = length (filter is_equal_op ops) + length (filter is_delete_op ops)
  /\ length (filter keeps_after ops)
     = length (filter is_equal_op ops) + length (filter is_insert_op ops)
  /\ length ops
     = length (filter is_equal_op ops) + length (filter is_delete_op ops)
       + length (filter is_insert_op ops).
Proof.
  unfold keeps_before, keeps_after, is_equal_op, is_delete_op, is_insert_op.
  induction ops as [|[[] v] ops (IH1 & IH2 & IH3)]; simpl; lia.
Qed.

Lemma computeDiff_op_counts_aux x y :
  length (filter is_delete_op (computeDiff x y))
  + length (kept_words (computeDiff x y)) = length (word_tokenize_spec x)
  /\ length (filter is_insert_op (computeDiff x y))
     + length (kept_words (computeDiff x y)) = length (word_tokenize_spec y)
  /\ length (computeDiff x y) + length (kept_words (computeDiff x y))
     = length (word_tokenize_spec x) + length (word_tokenize_spec y).
Proof.
  unfold kept_words. rewrite length_map.
  destruct (op_counts (computeDiff x y)) as (H1 & H2 & H3).
  pose proof (f_equal (@length _) (diff_before_words x y)) as Hx.
  pose proof (f_equal (@length _) (diff_after_words x y)) as Hy.
  rewrite length_map in Hx, Hy. lia.
Qed.

(** With [k] words kept, [computeDiff] deletes the other words of the
    before text and inserts the other words of the after text, and nothing
    else: the script has [m + n - k] ops. *)
Theorem computeDiff_op_counts (x y : jsstring) :
  let ops := computeDiff x y in
  let k := length (kept_words ops) in
  length (filter is_delete_op ops) + k = length (word_tokenize_spec x)
  /\ length (filter is_insert_op ops) + k = length (word_tokenize_spec y)
  /\ length ops + k
     = length (word_tokenize_spec x) + length (word_tokenize_spec y).
Proof.
  intros ops k. apply computeDiff_op_counts_aux.
Qed.

Lemma dp_spec_swap a b :
  dp_spec a b (length a) (length b) = dp_spec b a (length b) (length a).
Proof.
  apply Nat.le_antisymm.
  - destruct (dp_spec_reached a b (length a) (length b)) as (c & Ha & Hb & <-);
      [lia | lia |].
    now apply dp_spec_bound.
  - destruct (dp_spec_reached b a (length b) (length a)) as (c & Hb & Ha & <-);
      [lia | lia |].
    now apply dp_spec_bound.
Qed.

Lemma kept_count x y :
  length (kept_words (computeDiff x y))
  = dp_spec (word_tokenize_spec x) (word_tokenize_spec y)
      (length (word_tokenize_spec x)) (length (word_tokenize_spec y)).
Proof.
  unfold kept_words. rewrite length_map, computeDiff_words. unfold backtrack.
  rewrite equal_ops_loop by lia. simpl. lia.
Qed.

(** Swapping the two texts may change which words are kept (the tie-break
    is not symmetric) but not how many, nor the length of the script. *)
Theorem computeDiff_swap_counts (x y : jsstring) :
  length (kept_words (computeDiff y x)) = length (kept_words (computeDiff x y))
  /\ length (computeDiff y x) = length (computeDiff x y)
  /\ length (filter is_delete_op (computeDiff y x))
     = length (filter is_insert_op (computeDiff x y)).
Proof.
  assert (Hk : length (kept_words (computeDiff y x))
               = length (kept_words (computeDiff x y)))
    by (rewrite !kept_count; apply dp_spec_swap).
  destruct (computeDiff_op_counts_aux x y) as (H1 & H2 & H3).
  destruct (computeDiff_op_counts_aux y x) as (H4 & H5 & H6).
  repeat split; lia.
Qed.

(** ** One text without words *)

Lemma backtrack_loop_deletes dp a : forall i r,
  i <= length a ->
  backtrack_loop dp a [] i 0 r = map (mkOp delete) (firstn i a) ++ r.
Proof.
  induction i as [|i IH]; intros r Hi.
  - now rewrite backtrack_loop_body.
  - rewrite backtrack_loop_body.
    change (bt_more (S i) 0) with true.
    change (bt_equal a [] (S i) 0) with false.
    change (bt_insert dp (S i) 0) with false. cbn iota.
    replace (S i - 1) with i by lia. rewrite IH by lia.
    rewrite (firstn_S_snoc a i) by lia.
    rewrite map_app, <- app_assoc. reflexivity.
Qed.

Lemma backtrack_loop_inserts dp b : forall j r,
  j <= length b ->
  backtrack_loop dp [] b 0 j r = map (mkOp insert) (firstn j b) ++ r.
Proof.
  induction j as [|j IH]; intros r Hj.
  - now rewrite backtrack_loop_body.
  - rewrite backtrack_loop_body.
    change (bt_more 0 (S j)) with true.
    change (bt_equal [] b 0 (S j)) with false.
    change (bt_insert dp 0 (S j)) with true. cbn iota.
    replace (S j - 1) with j by lia. rewrite IH by lia.
    rewrite (firstn_S_snoc b j) by lia.
    rewrite map_app, <- app_assoc. reflexivity.
Qed.

(** Against an empty or whitespace-only text, the script deletes every
    word of the before text, or inserts every word of the after text, in
    order. *)
Theorem computeDiff_against_blank (blank x : jsstring) :
  forallb is_space blank = true ->
  computeDiff x blank = map (mkOp delete) (word_tokenize_spec x)
  /\ computeDiff blank x = map (mkOp insert) (word_tokenize_spec x).
Proof.
  intros Hb. rewrite !computeDiff_words.
  rewrite (word_tokenize_spec_blank blank Hb). unfold backtrack. split.
  - rewrite backtrack_loop_deletes by lia.
    now rewrite firstn_all, app_nil_r.
  - rewrite backtrack_loop_inserts by lia.
    now rewrite firstn_all, app_nil_r.
Qed.

Lemma computeDiff_against_blank_witness :
  forallb is_space (lit "  ") = true
  /\ computeDiff (lit "a b") (lit "  ")
     = [mkOp delete (lit "a"); mkOp delete (lit "b")]
  /\ computeDiff (lit "  ") (lit "a b")
     = [mkOp insert (lit "a"); mkOp insert (lit "b")].
Proof.
  split; [reflexivity|].
  apply (computeDiff_against_blank (lit "  ") (lit "a b")). reflexivity.
Defined.

(** ** Whitespace around the texts *)

Lemma word_tokenize_spec_leading s :
  word_tokenize_spec (drop_while is_space s) = word_tokenize_spec s.
Proof.
  induction s as [|c s IH]; [reflexivity|].
  cbn [drop_while]. destruct (is_space c) eqn:E; [|reflexivity].
  rewrite IH. simpl. now rewrite E.
Qed.

Lemma word_tokenize_spec_trailing ws : forallb is_space ws = true ->
  forall s, word_tokenize_spec (s ++ ws) = word_tokenize_spec s.
Proof.
  intros Hws. induction s as [|c s IH].
  - now apply word_tokenize_spec_blank.
  - destruct (is_space c) eqn:Ec.
    + simpl. rewrite Ec. exact IH.
    + destruct s as [|d s].
      * destruct ws as [|w ws]; [reflexivity|].
        simpl in Hws. apply andb_prop in Hws as [Hw Hws].
        simpl. rewrite Ec, Hw.
        now rewrite (word_tokenize_spec_blank ws Hws).
      * change ((c :: d :: s) ++ ws) with (c :: d :: (s ++ ws)).
        destruct (is_space d) eqn:Ed.
        -- change (word_tokenize_spec (c :: d :: s ++ ws))
             with (if is_space c then word_tokenize_spec (d :: s ++ ws)
                   else if is_space d then [c] :: word_tokenize_spec (d :: s ++ ws)
                        else match word_tokenize_spec (d :: s ++ ws) with
                             | w :: l => (c :: w) :: l
                             | [] => [[c]]
                             end).
           change (word_tokenize_spec (c :: d :: s))
             with (if is_space c then word_tokenize_spec (d :: s)
                   else if is_space d then [c] :: word_tokenize_spec (d :: s)
                        else match word_tokenize_spec (d :: s) with
                             | w :: l => (c :: w) :: l
                             | [] => [[c]]
                             end).
           rewrite Ec, Ed. f_equal. exact IH.
        -- rewrite (word_tokenize_spec_cons2 c d (s ++ ws) Ec Ed).
           rewrite (word_tokenize_spec_cons2 c d s Ec Ed).
           change (d :: s ++ ws) with ((d :: s) ++ ws). now rewrite IH.
Qed.

Lemma rev_drop_while_trailing s :
  exists ws, forallb is_space ws = true
             /\ s = rev (drop_while is_space (rev s)) ++ ws.
Proof.
  exists (rev (take_while is_space (rev s))). split.
  - rewrite forallb_rev. apply take_while_all.
  - rewrite <- rev_app_distr, take_drop_while. symmetry. apply rev_involutive.
Qed.

Lemma word_tokenize_spec_trim s :
  word_tokenize_spec (trim s) = word_tokenize_spec s.
Proof.
  unfold trim.
  destruct (rev_drop_while_trailing (drop_while is_space s)) as (ws & Hws & E).
  rewrite <- (word_tokenize_spec_leading s). rewrite E at 2.
  symmetry. now apply word_tokenize_spec_trailing.
Qed.

(** Whitespace before and after a text does not change the diff:
    [computeDiff] of the trimmed texts is [computeDiff] of the texts. *)
Theorem computeDiff_trim (x y : jsstring) :
  computeDiff (trim x) (trim y) = computeDiff x y.
Proof.
  rewrite !computeDiff_words. now rewrite !word_tokenize_spec_trim.
Qed.

(** ** The two views *)

Lemma view_texts ops :
  map text (getBeforeView ops) = map value (filter keeps_before ops)
  /\ map text (getAfterView ops) = map value (filter keeps_after ops).
Proof.
  unfold getBeforeView, getAfterView, keeps_before, keeps_after.
  split; rewrite map_map; reflexivity.
Qed.

Lemma view_plain ops :
  map text (filter (fun g => negb (highlighted g)) (getBeforeView ops))
  = kept_words ops
  /\ map text (filter (fun g => negb (highlighted g)) (getAfterView ops))
     = kept_words ops
  /\ map text (filter highlighted (getBeforeView ops))
     = map value (filter is_delete_op ops)
  /\ map text (filter highlighted (getAfterView ops))
     = map value (filter is_insert_op ops).
Proof.
  unfold getBeforeView, getAfterView, kept_words, is_equal_op, is_delete_op,
    is_insert_op.
  induction ops as [|[[] v] ops (IH1 & IH2 & IH3 & IH4)]; simpl;
    repeat split; congruence.
Qed.

(** The before view shows the words of the before text, in order, and the
    after view those of the after text; the words left plain are the same
    in the two views, and the highlighted ones are the deleted words on one
    side and the inserted words on the other. *)
Theorem views_of_diff (x y : jsstring) :
  let ops := computeDiff x y in
  map text (getBeforeView ops) = word_tokenize_spec x
  /\ map text (getAfterView ops) = word_tokenize_spec y
  /\ map text (filter (fun g => negb (highlighted g)) (getBeforeView ops))
     = map text (filter (fun g => negb (highlighted g)) (getAfterView ops))
  /\ map text (filter highlighted (getBeforeView ops))
     = map value (filter is_delete_op ops)
  /\ map text (filter highlighted (getAfterView ops))
     = map value (filter is_insert_op ops).
Proof.
  intros ops.
  destruct (view_texts ops) as [H1 H2].
  destruct (view_plain ops) as (H3 & H4 & H5 & H6).
  unfold ops in *.
  rewrite H1, H2, H3, H4, diff_before_words, diff_after_words.
  repeat split; assumption.
Qed.

(* ===================================================================== *)
(** * Further properties of the analyzer *)
(* ===================================================================== *)

(** ** What a scan returns *)

Lemma match_all_Forall (m : matcher) (Q : jsstring -> Prop) :
  (forall prev s rest, m r_done prev s = Some rest ->
                       Q (firstn (length s - length rest) s)) ->
  forall s skip prev, Forall Q (match_all m skip prev s).
Proof.
  intros Hm. induction s as [|c s IH]; intros skip prev; simpl.
  - destruct skip; [|constructor].
    destruct (m r_done prev []) eqn:E; constructor; [|constructor].
    apply (Hm _ _ _ E).
  - destruct skip as [|n]; [|apply IH].
    destruct (m r_done prev (c :: s)) eqn:E; [|apply IH].
    constructor; [|apply IH]. apply (Hm _ _ _ E).
Qed.

Lemma match_all_count (m : matcher) :
  (forall prev, m r_done prev [] = None) ->
  forall s skip prev, length (match_all m skip prev s) <= length s.
Proof.
  intros Hm. induction s as [|c s IH]; intros skip prev.
  - simpl. rewrite Hm. destruct skip; simpl; lia.
  - cbn [match_all].
    destruct skip as [|n]; [|specialize (IH n (Some c)); cbn [length]; lia].
    destruct (m r_done prev (c :: s)) as [rest|]; cbn [length].
    + specialize (IH (S (length s) - length rest - 1) (Some c)). lia.
    + specialize (IH 0 (Some c)). lia.
Qed.

(** A greedy class repetition takes a run of the class, then the rest of
    the pattern goes on. *)
Lemma r_star_some p (k : cont) : forall s prev rest,
  r_star p k prev s = Some rest ->
  exists w s2 prev', s = w ++ s2 /\ forallb p w = true
                     /\ k prev' s2 = Some rest.
Proof.
  induction s as [|c s IH]; intros prev rest H; simpl in H.
  - exists [], [], prev. repeat split. exact H.
  - destruct (p c) eqn:Ec.
    + destruct (r_star p k (Some c) s) as [r|] eqn:Er.
      * injection H as <-. destruct (IH _ _ Er) as (w & s2 & prev' & -> & Hw & Hk).
        exists (c :: w), s2, prev'. repeat split; [|exact Hk].
        simpl. now rewrite Ec.
      * exists [], (c :: s), prev. repeat split. exact H.
    + exists [], (c :: s), prev. repeat split. exact H.
Qed.

Lemma firstn_prefix (w rest : jsstring) :
  firstn (length (w ++ rest) - length rest) (w ++ rest) = w.
Proof.
  rewrite length_app. replace (length w + length rest - length rest)
    with (length w) by lia.
  rewrite firstn_app, Nat.sub_diag, firstn_all. simpl. apply app_nil_r.
Qed.

Lemma re_word_match prev s rest :
  re_word r_done prev s = Some rest ->
  exists w, s = w ++ rest /\ w <> [] /\ forallb is_word_unit w = true.
Proof.
  unfold re_word, r_seq. unfold r_wb at 1.
  destruct (xorb (is_word_opt prev) (is_word_opt (hd_error s)));
    [|discriminate].
  unfold r_plus, r_seq, r_class. destruct s as [|c s]; [discriminate|].
  destruct (is_word_unit c) eqn:Ec; [|discriminate].
  intros H. apply r_star_some in H as (w & s2 & prev' & -> & Hw & Hk).
  unfold r_wb, r_done in Hk.
  destruct (xorb (is_word_opt prev') (is_word_opt (hd_error s2)));
    [|discriminate].
  injection Hk as <-. exists (c :: w). repeat split; [discriminate|].
  simpl. now rewrite Ec.
Qed.

(** Every word [splitWords] extracts is a non-empty string of ASCII
    letters, apostrophes and hyphens, and there are no more words than the
    text has code units. *)
Theorem splitWords_words (text : jsstring) :
  Forall (fun w => w <> [] /\ forallb is_word_unit w = true) (splitWords text)
  /\ length (splitWords text) <= length text.
Proof.
  unfold splitWords. destruct (str_empty (trim text)).
  - split; [constructor | simpl; lia].
  - split.
    + apply match_all_Forall. intros prev s rest H.
      apply re_word_match in H as (w & -> & Hne & Hw).
      rewrite firstn_prefix. now split.
    + apply match_all_count. intros prev.
      unfold re_word, r_seq, r_wb. simpl.
      now destruct (xorb (is_word_opt prev) false).
Qed.

(** ** Sentences *)

Lemma r_star_total p (k : cont) (g : jsstring -> jsstring) :
  (forall prev s, k prev s = Some (g s)) ->
  forall s prev, r_star p k prev s = Some (g (drop_while p s)).
Proof.
  intros Hk. induction s as [|c s IH]; intros prev; simpl; [apply Hk|].
  destruct (p c); [now rewrite IH | apply Hk].
Qed.

Lemma re_sentence_end_cons prev c s :
  re_sentence_end r_done prev (c :: s) =
  if is_terminator c
  then Some (drop_while is_space (drop_while is_terminator s))
  else None.
Proof.
  unfold re_sentence_end, r_plus, r_seq, r_class.
  destruct (is_terminator c); [|reflexivity].
  apply (r_star_total is_terminator (r_star is_space r_done)
           (drop_while is_space)).
  intros p u. apply r_star_done.
Qed.

Lemma split_go_no_terminator s : forall skip cur prev,
  forallb (fun c => negb (is_terminator c)) cur = true ->
  Forall (fun p => forallb (fun c => negb (is_terminator c)) p = true)
    (split_go re_sentence_end skip cur prev s).
Proof.
  induction s as [|c s IH]; intros skip cur prev Hcur.
  - simpl. now repeat constructor.
  - cbn [split_go]. destruct skip as [|n]; [|now apply IH].
    rewrite re_sentence_end_cons. destruct (is_terminator c) eqn:Ec.
    + pose proof (drop_while_length is_space (drop_while is_terminator s)).
      pose proof (drop_while_length is_terminator s).
      destruct (length (c :: s)
                - length (drop_while is_space (drop_while is_terminator s)))
        as [|n] eqn:El; [cbn [length] in El; lia|].
      constructor; [exact Hcur | now apply IH].
    + apply IH. rewrite forallb_app, Hcur. simpl. now rewrite Ec.
Qed.

(** No sentence of [splitSentences] holds a full stop, an exclamation mark
    or a question mark; none is blank; and there are no more sentences than
    the text has code units. *)
Theorem splitSentences_pieces (text : jsstring) :
  Forall (fun p => forallb (fun c => negb (is_terminator c)) p = true
                   /\ forallb is_space p = false)
    (splitSentences text)
  /\ length (splitSentences text) <= length text.
Proof.
  split; [|apply splitSentences_length].
  unfold splitSentences. destruct (str_empty (trim text)); [constructor|].
  apply Forall_forall. intros p Hp. apply filter_In in Hp as [Hin Hnb].
  split.
  - pose proof (split_go_no_terminator text 0 [] None eq_refl) as H.
    rewrite Forall_forall in H. now apply H.
  - destruct (forallb is_space p) eqn:E; [|reflexivity].
    apply trim_nil_iff in E. rewrite E in Hnb. discriminate.
Qed.

(** ** Syllables depend on the letters only *)

Lemma lower_unit_lower c : is_lower c = true -> lower_unit c = [c].
Proof.
  intros H. unfold lower_unit.
  assert (Hc : (97 <= c <= 122)%N).
  { unfold is_lower, in_range in H. apply andb_prop in H as [H1 H2].
    apply N.leb_le in H1, H2. lia. }
  assert (Hu : is_upper c = false).
  { unfold is_upper, in_range. destruct (N.leb_spec c 90); [lia|].
    apply andb_false_r. }
  rewrite Hu.
  destruct (N.eqb_spec c 0x130) as [->|_]; [lia|].
  destruct (N.eqb_spec c 0x212A) as [->|_]; [lia|]. reflexivity.
Qed.

Lemma stripped_lower l : forallb is_lower l = true -> stripped l = l.
Proof.
  unfold stripped, toLowerCase. induction l as [|c l IH]; [reflexivity|].
  simpl. intros H. apply andb_prop in H as [Hc Hl].
  rewrite (lower_unit_lower c Hc). simpl. rewrite Hc. f_equal. now apply IH.
Qed.

Lemma stripped_all_lower w : forallb is_lower (stripped w) = true.
Proof.
  unfold stripped. apply forallb_forall. intros c Hc.
  now apply filter_In in Hc.
Qed.

Lemma stripped_length w : length (stripped w) <= length w.
Proof.
  unfold stripped, toLowerCase. induction w as [|c w IH]; [simpl; lia|].
  cbn [flat_map]. rewrite filter_app, length_app. cbn [length].
  assert (length (filter is_lower (lower_unit c)) <= 1); [|lia].
  unfold lower_unit.
  destruct (is_upper c);
    [|destruct (N.eqb c 0x130); [|destruct (N.eqb c 0x212A)]].
  - cbn [filter]. destruct (is_lower (c + 32)); simpl; lia.
  - vm_compute. lia.
  - vm_compute. lia.
  - cbn [filter]. destruct (is_lower c); simpl; lia.
Qed.

Lemma vowel_runs_length s : forall b, vowel_runs b s <= length s.
Proof.
  induction s as [|c s IH]; intros b; simpl; [lia|].
  destruct (is_vowel c); [|specialize (IH false); lia].
  specialize (IH true). destruct b; lia.
Qed.

Lemma stripped_units word : stripped word = flat_map kept_letter word.
Proof.
  unfold stripped, toLowerCase.
  induction word as [|c w IH]; [reflexivity|].
  cbn [flat_map]. rewrite filter_app, IH. f_equal.
  unfold lower_unit, kept_letter.
  destruct (is_upper c) eqn:Eu.
  - assert (El : is_lower (c + 32) = true).
    { revert Eu. unfold_classes. intros Eu. class_props Eu.
      rewrite andb_true_iff, !N.leb_le. lia. }
    cbn [filter]. now rewrite El.
  - destruct (is_lower c) eqn:El.
    + assert (E1 : N.eqb c 0x130 = false).
      { apply N.eqb_neq. intros ->. discriminate. }
      assert (E2 : N.eqb c 0x212A = false).
      { apply N.eqb_neq. intros ->. discriminate. }
      rewrite E1, E2. cbn [filter]. now rewrite El.
    + destruct (N.eqb c 0x130) eqn:E1; [reflexivity|].
      destruct (N.eqb c 0x212A) eqn:E2; [reflexivity|].
      cbn [filter]. now rewrite El.
Qed.

Lemma countSyllables_le_stripped word :
  countSyllables word <= length (stripped word).
Proof.
  unfold countSyllables. fold (stripped word).
  set (w := stripped word).
  destruct w as [|c t] eqn:Ew; [simpl; lia|]. cbn [str_empty].
  destruct (length (c :: t) <=? 2) eqn:El; [simpl; lia|].
  apply Nat.leb_gt in El.
  pose proof (vowel_groups_length (c :: t)) as Hn.
  pose proof (vowel_runs_length (c :: t) false) as Hr.
  destruct (js_match_g re_vowels (c :: t)) as [|g gs]; [lia|].
  rewrite Hn.
  repeat match goal with
         | |- context [if ?b then _ else _] => destruct b
         end; lia.
Qed.

(** [countSyllables] sees a word only through
    [word.toLowerCase().replace(/[^a-z]/g, '')]: it gives the same value on
    that stripped string, and never more than the stripped string has code
    units, which are never more than the word has.  (The stripped string is
    what lower-casing leaves in [a-z]: besides the ASCII letters of the
    word, a [k] for each U+212A and an [i] for each U+0130.) *)
Theorem countSyllables_letters (word : jsstring) :
  countSyllables word = countSyllables (stripped word)
  /\ countSyllables word <= length (stripped word)
  /\ length (stripped word) <= length word
  /\ stripped word = flat_map kept_letter word.
Proof.
  split; [|split; [apply countSyllables_le_stripped|split;
                   [apply stripped_length | apply stripped_units]]].
  unfold countSyllables. fold (stripped word).
  fold (stripped (stripped word)).
  now rewrite (stripped_lower _ (stripped_all_lower word)).
Qed.

(** A Kelvin sign counts as the letter k, and a dotted capital I as the
    letter i. *)
Example countSyllables_kelvin :
  countSyllables [0x212A; 105; 0x212A; 105]%N = 2
  /\ countSyllables (lit "ii") = 1
  /\ countSyllables [0x130]%N = 1
  /\ countSyllables (lit "kiki") = 2.
Proof. repeat split. Qed.

(** ** The counts of a text *)

Lemma analyzeText_counts_blank text :
  forallb is_space text = true ->
  analyzeText text = mkMetrics 0 0 0 0 0 0 0 0 0.
Proof.
  intros H. unfold analyzeText. now rewrite (analyzeText_blank text H).
Qed.

Lemma analyzeText_sentences text :
  forallb is_space text = false ->
  sentenceCount (analyzeText text) = Nat.max (length (splitSentences text)) 1
  /\ wordCount (analyzeText text) = length (splitWords text)
  /\ adverbCount (analyzeText text) = countAdverbs text.
Proof.
  intros H. unfold analyzeText. rewrite (analyzeText_not_blank text H).
  repeat split.
Qed.

(** [analyzeText] gives the all-zero metrics for the blank texts and for no
    other: a text with a non-whitespace code unit counts at least one
    sentence.  For every text, the adverbs are among the words, and there
    are no more words, and no more sentences, than code units. *)
Theorem analyzeText_counts (text : jsstring) :
  (analyzeText text = mkMetrics 0 0 0 0 0 0 0 0 0
   <-> forallb is_space text = true)
  /\ (forallb is_space text = false -> 1 <= sentenceCount (analyzeText text))
  /\ adverbCount (analyzeText text) <= wordCount (analyzeText text)
  /\ wordCount (analyzeText text) <= length text
  /\ sentenceCount (analyzeText text) <= length text.
Proof.
  destruct (forallb is_space text) eqn:E.
  - rewrite (analyzeText_counts_blank text E). cbn.
    split; [split; auto|]. split; [discriminate|]. repeat split; lia.
  - destruct (analyzeText_sentences text E) as (Hs & Hw & Ha).
    assert (Hlen : 1 <= length text)
      by (destruct text; [discriminate | simpl; lia]).
    split; [split; [|discriminate]|].
    { intros H. apply (f_equal sentenceCount) in H. rewrite Hs in H.
      cbn in H. lia. }
    rewrite Hs, Hw, Ha.
    split; [lia|]. split; [unfold countAdverbs; apply filter_length_le|].
    split.
    + unfold splitWords. destruct (str_empty (trim text)); [simpl; lia|].
      apply match_all_count. intros prev.
      unfold re_word, r_seq, r_wb. simpl.
      now destruct (xorb (is_word_opt prev) false).
    + pose proof (splitSentences_length text). lia.
Qed.

(** ** Passive constructions and syllables among the words *)

Lemma consumes_class p : consumes (r_class p).
Proof.
  intros k prev [|c s] r H; cbn in H; [discriminate|].
  destruct (p c); [|discriminate].
  exists [c], s, (Some c). split; [reflexivity | exact H].
Qed.

Lemma consumes_seq m1 m2 : consumes m1 -> consumes m2 -> consumes (r_seq m1 m2).
Proof.
  intros H1 H2 k prev s r H. unfold r_seq in H.
  destruct (H1 _ _ _ _ H) as (w1 & s2 & p1 & -> & H').
  destruct (H2 _ _ _ _ H') as (w2 & s3 & p2 & -> & H'').
  exists (w1 ++ w2), s3, p2. split; [apply app_assoc | exact H''].
Qed.

Lemma consumes_alt m1 m2 : consumes m1 -> consumes m2 -> consumes (r_alt m1 m2).
Proof.
  intros H1 H2 k prev s r H. unfold r_alt in H.
  destruct (m1 k prev s) eqn:E.
  - injection H as <-. exact (H1 _ _ _ _ E).
  - exact (H2 _ _ _ _ H).
Qed.

Lemma consumes_star p : consumes (r_star p).
Proof.
  intros k prev s r H.
  apply r_star_some in H as (w & s2 & prev' & -> & _ & Hk).
  now exists w, s2, prev'.
Qed.

Lemma consumes_plus p : consumes (r_plus p).
Proof. apply consumes_seq; [apply consumes_class | apply consumes_star]. Qed.

Lemma consumes_wb : consumes r_wb.
Proof.
  intros k prev s r H. unfold r_wb in H.
  destruct (xorb (is_word_opt prev) (is_word_opt (hd_error s)));
    [|discriminate].
  now exists [], s, prev.
Qed.

Lemma consumes_lit_ci l : consumes (r_lit_ci l).
Proof.
  induction l as [|c l IH]; cbn [r_lit_ci].
  - intros k prev s r H. now exists [], s, prev.
  - apply consumes_seq; [apply consumes_class | exact IH].
Qed.

Lemma consumes_alts ms : Forall consumes ms -> consumes (r_alts ms).
Proof.
  induction 1 as [|m ms Hm _ IH]; cbn [r_alts].
  - intros k prev s r H. discriminate.
  - now apply consumes_alt.
Qed.

(** What the passive pattern matches holds a whitespace code unit. *)
Lemma re_passive_match prev s r :
  re_passive r_done prev s = Some r ->
  exists w, s = w ++ r /\ existsb is_space w = true.
Proof.
  unfold re_passive.
  set (A := r_alts (map (fun w => r_lit_ci (lit w)) auxiliaries)).
  set (B := r_seq
              (r_alt (r_seq (r_plus is_word_char) (r_lit_ci (lit "ed")))
                     (r_seq (r_plus is_word_char) (r_lit_ci (lit "en"))))
              r_wb).
  assert (HA : consumes A).
  { apply consumes_alts, Forall_forall. intros m Hm.
    apply in_map_iff in Hm as (w & <- & _). apply consumes_lit_ci. }
  assert (HB : consumes B).
  { apply consumes_seq; [|apply consumes_wb].
    apply consumes_alt; apply consumes_seq;
      auto using consumes_plus, consumes_lit_ci. }
  intros H.
  destruct (consumes_seq r_wb A consumes_wb HA
              (r_plus is_space (B r_done)) prev s r H)
    as (w1 & s2 & p2 & -> & H2).
  unfold r_plus, r_seq, r_class in H2.
  destruct s2 as [|c s3]; [discriminate|].
  destruct (is_space c) eqn:Ec; [|discriminate].
  apply r_star_some in H2 as (w2 & s4 & p4 & -> & _ & H4).
  destruct (HB r_done p4 s4 r H4) as (w3 & s5 & p5 & -> & H5).
  injection H5 as <-.
  exists (w1 ++ (c :: w2) ++ w3). split.
  - rewrite <- !app_assoc. reflexivity.
  - rewrite !existsb_app. cbn [existsb]. rewrite Ec.
    now rewrite orb_true_r.
Qed.

Lemma word_units_no_space w :
  forallb is_word_unit w = true -> existsb is_space w = false.
Proof.
  induction w as [|c w IH]; [reflexivity|]. cbn [forallb existsb].
  intros H. apply andb_prop in H as [Hc Hw].
  rewrite (IH Hw), orb_false_r.
  destruct (is_space c) eqn:E; [|reflexivity].
  apply space_not_word_unit in E. congruence.
Qed.

Lemma existsb_firstn_le {A} (p : A -> bool) l : forall a b,
  a <= b -> existsb p (firstn b l) = false -> existsb p (firstn a l) = false.
Proof.
  induction l as [|x l IH]; intros a b Hab H.
  - now rewrite firstn_nil.
  - destruct a as [|a]; [reflexivity|].
    destruct b as [|b]; [lia|].
    cbn [firstn existsb] in *. apply orb_false_elim in H as [Hx Hl].
    rewrite Hx. cbn [orb]. apply (IH a b); [lia | exact Hl].
Qed.

(** Two scans of one text: when the first pattern matches only where the
    second does, every match of the first holds a code unit of a class, and
    no match of the second does, the first scan finds no more matches than
    the second. *)
Lemma match_all_dominates (m1 m2 : matcher) (p : N -> bool) :
  (forall prev s r, m1 r_done prev s = Some r ->
                    existsb p (firstn (length s - length r) s) = true) ->
  (forall prev s r, m2 r_done prev s = Some r ->
                    existsb p (firstn (length s - length r) s) = false) ->
  (forall prev s, m2 r_done prev s = None -> m1 r_done prev s = None) ->
  forall s skip1 skip2 prev,
    (skip2 <= skip1 ->
     length (match_all m1 skip1 prev s) <= length (match_all m2 skip2 prev s))
    /\ (existsb p (firstn skip2 s) = false ->
        length (match_all m1 skip1 prev s)
        <= S (length (match_all m2 skip2 prev s))).
Proof.
  intros H1 H2 H3.
  induction s as [|c s IH]; intros skip1 skip2 prev.
  - assert (E : m1 r_done prev [] = None).
    { destruct (m1 r_done prev []) eqn:E; [|reflexivity].
      apply H1 in E. discriminate. }
    cbn [match_all]. rewrite E.
    split; intros _; destruct skip1; cbn [length]; lia.
  - assert (T : forall r2 : jsstring,
                existsb p (firstn (length (c :: s) - length r2) (c :: s))
                = false ->
                existsb p (firstn (length (c :: s) - length r2 - 1) s)
                = false).
    { intros r2 X2.
      remember (length (c :: s) - length r2) as len2 eqn:Hl. clear Hl.
      destruct len2 as [|k]; [reflexivity|].
      cbn [firstn existsb] in X2. apply orb_false_elim in X2 as [_ X2].
      now replace (S k - 1) with k by lia. }
    assert (A : skip2 <= skip1 ->
                length (match_all m1 skip1 prev (c :: s))
                <= length (match_all m2 skip2 prev (c :: s))).
    { intros Hs. cbn [match_all]. destruct skip1 as [|n1].
      - assert (skip2 = 0) by lia. subst skip2.
        destruct (m1 r_done prev (c :: s)) as [r1|] eqn:E1.
        + destruct (m2 r_done prev (c :: s)) as [r2|] eqn:E2;
            [|rewrite (H3 _ _ E2) in E1; discriminate].
          pose proof (H1 _ _ _ E1) as X1. pose proof (H2 _ _ _ E2) as X2.
          remember (length (c :: s) - length r1) as len1 eqn:Hl1. clear Hl1.
          remember (length (c :: s) - length r2) as len2 eqn:Hl2. clear Hl2.
          cbn [length]. apply le_n_S. apply IH.
          destruct (Nat.le_gt_cases len2 len1) as [L|L]; [lia|].
          rewrite (existsb_firstn_le p (c :: s) _ _ (Nat.lt_le_incl _ _ L) X2)
            in X1. discriminate.
        + destruct (m2 r_done prev (c :: s)) as [r2|] eqn:E2.
          * cbn [length]. apply IH. apply T, (H2 _ _ _ E2).
          * apply IH. lia.
      - destruct skip2 as [|n2].
        + destruct (m2 r_done prev (c :: s)) as [r2|] eqn:E2.
          * cbn [length]. apply IH. apply T, (H2 _ _ _ E2).
          * apply IH. lia.
        + apply IH. lia. }
    split; [exact A|]. intros Hp.
    destruct skip2 as [|n2]; [specialize (A (Nat.le_0_l _)); lia|].
    assert (X : existsb p (firstn (S n2) (c :: s)) = false) by exact Hp.
    cbn [firstn existsb] in Hp. apply orb_false_elim in Hp as [Hc Hp].
    cbn [match_all]. destruct skip1 as [|n1]; [|now apply IH].
    destruct (m1 r_done prev (c :: s)) as [r1|] eqn:E1; [|now apply IH].
    pose proof (H1 _ _ _ E1) as X1.
    remember (length (c :: s) - length r1) as len1 eqn:Hl1. clear Hl1.
    cbn [length]. apply le_n_S. apply IH.
    destruct (Nat.le_gt_cases len1 (S n2)) as [L|L]; [|lia].
    rewrite (existsb_firstn_le p (c :: s) _ _ L X) in X1. discriminate.
Qed.

Lemma passive_among_words text :
  countPassiveVoice text <= length (js_match_g re_word text).
Proof.
  unfold countPassiveVoice, js_match_g.
  apply (match_all_dominates re_passive re_word is_space); [| | |lia].
  - intros prev s r H. apply re_passive_match in H as (w & -> & Hw).
    now rewrite firstn_prefix.
  - intros prev s r H. apply re_word_match in H as (w & -> & _ & Hw).
    rewrite firstn_prefix. now apply word_units_no_space.
  - apply passive_needs_word.
Qed.

(** The matches of a scan do not overlap: together they hold no more code
    units than the text. *)
Lemma match_all_total (m : matcher) : forall s skip prev,
  list_sum (map (@length N) (match_all m skip prev s)) <= length s - skip.
Proof.
  induction s as [|c s IH]; intros skip prev.
  - cbn [match_all]. destruct skip; [destruct (m r_done prev [])|];
      cbn; lia.
  - cbn [match_all]. destruct skip as [|n].
    + destruct (m r_done prev (c :: s)) as [rest|].
      * cbn [map list_sum fold_right]. rewrite length_firstn.
        specialize (IH (length (c :: s) - length rest - 1) (Some c)).
        cbn [length] in *. fold (list_sum
          (map (@length N)
             (match_all m (S (length s) - length rest - 1) (Some c) s))).
        lia.
      * specialize (IH 0 (Some c)). cbn [length]. lia.
    + specialize (IH n (Some c)). cbn [length]. lia.
Qed.

Lemma fold_left_sum_le {A} (f g : A -> nat) :
  (forall x, f x <= g x) ->
  forall l acc,
    fold_left (fun sum w => sum + f w) l acc <= acc + list_sum (map g l).
Proof.
  intros Hfg. unfold list_sum.
  induction l as [|x l IH]; intros acc; cbn [fold_left map fold_right]; [lia|].
  specialize (IH (acc + f x)). specialize (Hfg x). lia.
Qed.

(** In the metrics of every text, the passive constructions are no more
    than the words, and the syllables no more than the code units of the
    text. *)
Theorem analyzeText_passive_syllables (text : jsstring) :
  passiveVoiceCount (analyzeText text) <= wordCount (analyzeText text)
  /\ syllableCount (analyzeText text) <= length text.
Proof.
  destruct (forallb is_space text) eqn:E.
  - rewrite (analyzeText_counts_blank text E). cbn. lia.
  - pose proof (analyzeText_not_blank text E) as G.
    unfold analyzeText. rewrite G.
    cbn [passiveVoiceCount wordCount syllableCount].
    apply orb_false_elim in G as [_ G].
    unfold splitWords. rewrite G. split.
    + apply passive_among_words.
    + etransitivity;
        [apply (fold_left_sum_le countSyllables (@length N))|].
      * intros w. pose proof (countSyllables_le_stripped w).
        pose proof (stripped_length w). lia.
      * pose proof (match_all_total re_word text 0 None).
        rewrite Nat.sub_0_r in H. exact H.
Qed.

(* ===================================================================== *)
(** * Further properties of the scorer and of the summary *)
(* ===================================================================== *)

(** ** A text against itself *)

(** [x - x] is 0, or NaN when [x] is infinite or NaN. *)
Lemma float_self_diff (x : float) :
  Prim2SF (x - x)%float = S754_zero false \/ Prim2SF (x - x)%float = S754_nan.
Proof.
  rewrite sub_spec. unfold SF64sub, SpecFloat.SFsub.
  destruct (Prim2SF x) as [[|]|[|]| |sx mx ex]; auto.
  left. rewrite Z.sub_diag. reflexivity.
Qed.

(** The relative change of a positive finite value to itself is 0. *)
Lemma float_self_change (x : float) :
  (0 <? x)%float = true -> (x =? infinity)%float = false ->
  ((x - x) / x)%float = 0%float.
Proof.
  intros Hpos Hfin. apply Prim2SF_inj.
  rewrite div_spec, sub_spec.
  rewrite FloatAxioms.ltb_spec in Hpos. rewrite FloatAxioms.eqb_spec in Hfin.
  unfold SF64div, SF64sub, SpecFloat.SFsub, SpecFloat.SFdiv.
  destruct (Prim2SF x) as [[|]|[|]| |[|] mx ex]; try discriminate.
  rewrite Z.sub_diag. reflexivity.
Qed.

Lemma score_readingEase_self m :
  (fleschReadingEase m =? infinity)%float = false ->
  score_readingEase m m 0%float = 0%float.
Proof.
  intros H. unfold score_readingEase.
  destruct (0 <? fleschReadingEase m)%float eqn:E; [|reflexivity].
  now rewrite float_self_change.
Qed.

Lemma score_grade_self m :
  (fleschKincaidGrade m =? infinity)%float = false ->
  score_grade m m 0%float = 0%float.
Proof.
  intros H. unfold score_grade.
  destruct (0 <? fleschKincaidGrade m)%float eqn:E; [|reflexivity].
  now rewrite float_self_change.
Qed.

Lemma score_sentenceLength_self m :
  (avgSentenceLength m =? infinity)%float = false ->
  score_sentenceLength m m 0%float = 0%float.
Proof.
  intros H. unfold score_sentenceLength.
  destruct (0 <? avgSentenceLength m)%float eqn:E; [|reflexivity].
  now rewrite float_self_change.
Qed.

Lemma score_passive_self m :
  (Z.of_nat (passiveVoiceCount m) < 2 ^ 53)%Z ->
  score_passive m m 0%float = 0%float.
Proof.
  intros H. unfold score_passive. rewrite Z.sub_diag. cbn [Z_to_float].
  destruct (passiveVoiceCount m) as [|n] eqn:E; [reflexivity|].
  cbn [Nat.ltb Nat.leb]. now rewrite zero_div_count by (assumption || lia).
Qed.

Lemma score_adverbs_self m :
  (Z.of_nat (adverbCount m) < 2 ^ 53)%Z ->
  score_adverbs m m 0%float = 0%float.
Proof.
  intros H. unfold score_adverbs. rewrite Z.sub_diag. cbn [Z_to_float].
  destruct (adverbCount m) as [|n] eqn:E; [reflexivity|].
  cbn [Nat.ltb Nat.leb]. now rewrite zero_div_count by (assumption || lia).
Qed.

(** The improvement score of metrics against themselves is 0, as long as
    none of the three readability values is +Infinity and the two counts
    are below 2^53 (as they are for the metrics of a text). *)
Theorem score_of_same_metrics (m : Metrics) :
  (fleschReadingEase m =? infinity)%float = false ->
  (fleschKincaidGrade m =? infinity)%float = false ->
  (avgSentenceLength m =? infinity)%float = false ->
  (Z.of_nat (passiveVoiceCount m) < 2 ^ 53)%Z ->
  (Z.of_nat (adverbCount m) < 2 ^ 53)%Z ->
  calculateImprovementScore m m = 0%float.
Proof.
  intros H1 H2 H3 H4 H5. unfold calculateImprovementScore.
  destruct ((wordCount m =? 0) || (wordCount m =? 0)); [reflexivity|].
  unfold totalScore.
  rewrite score_readingEase_self, score_grade_self, score_sentenceLength_self,
    score_passive_self, score_adverbs_self by assumption.
  reflexivity.
Qed.

Lemma score_of_same_metrics_witness :
  let m := analyzeText (lit "The report was written quickly. The plan was approved.") in
  wordCount m <> 0 /\ calculateImprovementScore m m = 0%float.
Proof.
  intros m. split; [vm_compute; discriminate|].
  apply (score_of_same_metrics m); vm_compute; reflexivity.
Defined.

Lemma float_self_diff_quiet (x lo hi : float) :
  (lo <? 0)%float = true -> (0 <? hi)%float = true ->
  (x - x <? lo)%float = false /\ (hi <? x - x)%float = false.
Proof.
  rewrite !FloatAxioms.ltb_spec. change (Prim2SF 0) with (S754_zero false).
  intros Hlo Hhi.
  destruct (float_self_diff x) as [-> | ->].
  - unfold SpecFloat.SFltb in *.
    destruct (Prim2SF lo) as [[|]|[|]| |[|] ml el];
      destruct (Prim2SF hi) as [[|]|[|]| |[|] mh eh];
      cbn in *; try discriminate; split; reflexivity.
  - split; unfold SpecFloat.SFltb, SpecFloat.SFcompare;
      [now destruct (Prim2SF lo) | now destruct (Prim2SF hi)].
Qed.

Lemma observations_self num_str m : observations num_str m m = [].
Proof.
  unfold observations. rewrite !Z.sub_diag. cbn [Z.ltb Z.compare].
  destruct (float_self_diff_quiet (fleschKincaidGrade m) (-1) 1 eq_refl eq_refl)
    as [-> ->].
  destruct (float_self_diff_quiet (avgSentenceLength m) (-3) 3 eq_refl eq_refl)
    as [-> ->].
  reflexivity.
Qed.

(** For metrics against themselves, whatever the score handed in, the
    summary is the sentence about two similar versions (or the request to
    enter text, when there is no word). *)
Theorem summary_of_same_metrics (num_str : float -> jsstring) (m : Metrics)
  (score : float) :
  generateSummary num_str m m score =
  if wordCount m =? 0
  then lit "Enter text in both fields to see an analysis."
  else lit "The two versions are very similar in readability. The differences are minimal.".
Proof.
  unfold generateSummary. rewrite observations_self, orb_diag.
  now destruct (wordCount m =? 0).
Qed.

(** ** The summary is a sentence *)

Lemma observations_start num_str b a :
  Forall (fun o => exists c t, o = c :: t /\ is_letter c = true)
    (observations num_str b a).
Proof.
  unfold observations.
  repeat (apply Forall_app; split);
    repeat match goal with
           | |- context [if ?c then _ else _] => destruct c
           end;
    repeat constructor; eexists; eexists; split; reflexivity.
Qed.

Lemma canon_upper c : is_letter c = true -> is_upper (canon c) = true.
Proof.
  intros H. apply is_letter_range in H.
  unfold is_upper, in_range.
  destruct (canon_cases c) as [(_ & -> & R)|(_ & -> & R)];
    apply andb_true_intro; split; apply N.leb_le; lia.
Qed.

Lemma last_app_nonempty (x y : jsstring) d : y <> [] -> last (x ++ y) d = last y d.
Proof.
  intros Hy. induction x as [|c x IH]; [reflexivity|].
  simpl. destruct (x ++ y) eqn:E; [|exact IH].
  apply app_eq_nil in E as [_ E]. congruence.
Qed.

Lemma build_summary_head (c : N) (t : jsstring) (obs : list jsstring) :
  exists tail, build_summary (@cons jsstring (c :: t) obs) = canon c :: tail.
Proof.
  unfold build_summary. cbn [hd capitalize].
  repeat match goal with
         | |- context [if ?b then _ else _] => destruct b
         end; eexists; reflexivity.
Qed.

(** Whatever the metrics and the score, the summary starts with an
    upper-case letter and ends with a full stop. *)
Theorem summary_is_sentence (num_str : float -> jsstring) (b a : Metrics)
  (score : float) :
  (exists c rest, generateSummary num_str b a score = c :: rest
                  /\ is_upper c = true)
  /\ last (generateSummary num_str b a score) 0%N = 46%N.
Proof.
  unfold generateSummary.
  destruct ((wordCount b =? 0) || (wordCount a =? 0));
    [split; [eexists; eexists; split; reflexivity | reflexivity]|].
  pose proof (observations_start num_str b a) as Hobs.
  destruct (observations num_str b a) as [|o obs];
    [split; [eexists; eexists; split; reflexivity | reflexivity]|].
  cbn [length Nat.eqb]. split.
  - inversion Hobs as [|? ? (c & t & -> & Hc) _]; subst.
    destruct (build_summary_head c t obs) as (tail & E).
    exists (canon c). eexists. split; [|now apply canon_upper].
    etransitivity; [apply (f_equal (fun x => x ++ _) E)|]. reflexivity.
  - rewrite app_assoc. unfold tip.
    destruct (20 <? avgSentenceLength a)%float.
    + rewrite !app_assoc. now rewrite last_app_nonempty.
    + rewrite app_nil_r. unfold recommendation.
      destruct (5 <? score)%float; [|destruct (score <? -5)%float];
        now rewrite last_app_nonempty.
Qed.

(* ===================================================================== *)
(** * Properties of the ratings and of the labels *)
(* ===================================================================== *)

(** ** The order of the floats *)

Lemma SFcompare_swap x y :
  SpecFloat.SFcompare y x = option_map CompOpp (SpecFloat.SFcompare x y).
Proof.
  destruct x as [[|]|[|]| |[|] mx ex], y as [[|]|[|]| |[|] my ey];
    try reflexivity; cbn;
    change (Pos.compare_cont Eq my mx) with (Pos.compare my mx);
    change (Pos.compare_cont Eq mx my) with (Pos.compare mx my);
    rewrite (Z.compare_antisym ex ey), (Pos.compare_antisym mx my);
    destruct (Z.compare ex ey); cbn; try reflexivity;
    now rewrite ?CompOpp_involutive.
Qed.

Lemma float_eqb_sym (x y : float) : (y =? x)%float = (x =? y)%float.
Proof.
  rewrite !FloatAxioms.eqb_spec. unfold SpecFloat.SFeqb.
  rewrite SFcompare_swap. now destruct (SpecFloat.SFcompare _ _) as [[]|].
Qed.

(** Of two different floats, neither NaN, one is below the other. *)
Lemma float_ltb_swap (x y : float) :
  (x =? x)%float = true -> (y =? y)%float = true ->
  (x =? y)%float = false -> (y <? x)%float = negb (x <? y)%float.
Proof.
  rewrite !FloatAxioms.eqb_spec, !FloatAxioms.ltb_spec.
  unfold SpecFloat.SFeqb, SpecFloat.SFltb.
  rewrite (SFcompare_swap (Prim2SF x) (Prim2SF y)).
  intros Hx Hy.
  destruct (Prim2SF x) as [[|]|[|]| |[|] mx ex],
           (Prim2SF y) as [[|]|[|]| |[|] my ey];
    try discriminate; cbn; try reflexivity; try discriminate;
    destruct (Z.compare ex ey); cbn; try reflexivity; try discriminate;
    destruct (Pos.compare_cont Eq mx my); cbn; try reflexivity; discriminate.
Qed.

Lemma SFleb_trans x y z :
  SpecFloat.SFleb x y = true -> SpecFloat.SFleb y z = true ->
  SpecFloat.SFleb x z = true.
Proof.
  unfold SpecFloat.SFleb.
  destruct x as [[|]|[|]| |[|] mx ex], y as [[|]|[|]| |[|] my ey],
           z as [[|]|[|]| |[|] mz ez];
    cbn; try reflexivity; try discriminate;
    change (Pos.compare_cont Eq) with Pos.compare;
    destruct (Z.compare_spec ex ey); try discriminate;
    destruct (Z.compare_spec ey ez); try discriminate;
    destruct (Z.compare_spec ex ez); try reflexivity; try lia; subst;
    try (destruct (Pos.compare_spec mx my); try discriminate);
    try (destruct (Pos.compare_spec my mz); try discriminate);
    try (destruct (Pos.compare_spec mx mz); try reflexivity; try discriminate);
    cbn; try reflexivity; try discriminate; lia.
Qed.

Lemma float_leb_trans (x y z : float) :
  (x <=? y)%float = true -> (y <=? z)%float = true -> (x <=? z)%float = true.
Proof. rewrite !FloatAxioms.leb_spec. apply SFleb_trans. Qed.

(** A NaN compares false with everything, itself included. *)
Lemma float_nan_compare (x y : float) :
  (x =? x)%float = false ->
  (x =? y)%float = false /\ (y =? x)%float = false
  /\ (x <? y)%float = false /\ (y <? x)%float = false.
Proof.
  rewrite !FloatAxioms.eqb_spec, !FloatAxioms.ltb_spec.
  unfold SpecFloat.SFeqb, SpecFloat.SFltb.
  destruct (Prim2SF x) as [[|]|[|]| |[|] mx ex]; cbn; try discriminate.
  - intros _. now destruct (Prim2SF y) as [[|]|[|]| |[|] my ey].
  - rewrite Z.compare_refl.
    change (Pos.compare_cont Eq mx mx) with (Pos.compare mx mx).
    rewrite Pos.compare_refl. discriminate.
  - rewrite Z.compare_refl.
    change (Pos.compare_cont Eq mx mx) with (Pos.compare mx mx).
    rewrite Pos.compare_refl. discriminate.
Qed.

(** ** The rating of a change *)

Lemma rated_In name :
  In name (map lit rated_metrics) <->
  str_eqb name (lit "avgSentenceLength")
  || str_eqb name (lit "fleschKincaidGrade")
  || str_eqb name (lit "fleschReadingEase")
  || str_eqb name (lit "passiveVoiceCount")
  || str_eqb name (lit "adverbCount") = true.
Proof.
  unfold rated_metrics. cbn [map In].
  rewrite !orb_true_iff, !str_eqb_eq.
  split; intros H; repeat destruct H as [H|H]; auto 10; contradiction.
Qed.

Ltac split_names name :=
  repeat match goal with
         | |- context [str_eqb name ?l] => destruct (str_eqb name l)
         end;
  cbn [orb].

(** Swapping the two values turns an improvement into a regression and back,
    as long as neither value is NaN. *)
Theorem getMetricDirection_swap (name : jsstring) (a b : float) :
  (a =? a)%float = true -> (b =? b)%float = true ->
  getMetricDirection name b a = flip (getMetricDirection name a b).
Proof.
  intros Ha Hb. unfold getMetricDirection.
  rewrite (float_eqb_sym a b).
  destruct (a =? b)%float eqn:E; [reflexivity|].
  rewrite (float_ltb_swap a b Ha Hb E).
  split_names name; try reflexivity; now destruct (a <? b)%float.
Qed.

Lemma getMetricDirection_swap_witness :
  (2 =? 2)%float = true /\ (5 =? 5)%float = true
  /\ getMetricDirection (lit "adverbCount") 5 2
     = flip (getMetricDirection (lit "adverbCount") 2 5).
Proof.
  split; [reflexivity|]. split; [reflexivity|].
  apply (getMetricDirection_swap (lit "adverbCount") 2 5); reflexivity.
Defined.

(** A change is rated neutral exactly when the two values are [===], or the
    metric is not one of the five rated ones. *)
Theorem getMetricDirection_neutral (name : jsstring) (a b : float) :
  getMetricDirection name a b = neutral
  <-> (a =? b)%float = true \/ ~ In name (map lit rated_metrics).
Proof.
  rewrite rated_In. unfold getMetricDirection.
  destruct (a =? b)%float; [split; auto|].
  split_names name;
    first [ split; [intros _; right; discriminate | reflexivity]
          | split;
            [ repeat match goal with
                     | |- context [if ?c then improved else worsened] =>
                         destruct c
                     end; discriminate
            | intros [H|H]; [discriminate | now elim H] ] ].
Qed.

(** Reading ease is rated the other way round from the grade level: for two
    values, neither NaN, a change that improves the one worsens the
    other. *)
Theorem readingEase_against_grade (a b : float) :
  (a =? a)%float = true -> (b =? b)%float = true ->
  getMetricDirection (lit "fleschReadingEase") a b
  = flip (getMetricDirection (lit "fleschKincaidGrade") a b).
Proof.
  intros Ha Hb. unfold getMetricDirection.
  destruct (a =? b)%float eqn:E; [reflexivity|].
  rewrite (float_ltb_swap a b Ha Hb E).
  now destruct (a <? b)%float.
Qed.

Lemma readingEase_against_grade_witness :
  (60 =? 60)%float = true /\ (72.5 =? 72.5)%float = true
  /\ getMetricDirection (lit "fleschReadingEase") 60 72.5
     = flip (getMetricDirection (lit "fleschKincaidGrade") 60 72.5).
Proof.
  split; [reflexivity|]. split; [reflexivity|].
  apply (readingEase_against_grade 60 72.5); reflexivity.
Defined.

(** With a NaN on either side, every rated metric is rated worsened. *)
Theorem getMetricDirection_nan (name : jsstring) (a b : float) :
  (a =? a)%float = false \/ (b =? b)%float = false ->
  In name (map lit rated_metrics) ->
  getMetricDirection name a b = worsened.
Proof.
  intros Hnan Hin. apply rated_In in Hin. revert Hin.
  unfold getMetricDirection.
  assert (H : (a =? b)%float = false /\ (a <? b)%float = false
              /\ (b <? a)%float = false).
  { destruct Hnan as [H|H].
    - destruct (float_nan_compare a b H) as (? & ? & ? & ?). auto.
    - destruct (float_nan_compare b a H) as (? & ? & ? & ?). auto. }
  destruct H as (-> & -> & ->).
  split_names name; try reflexivity; discriminate.
Qed.

Lemma getMetricDirection_nan_witness :
  ((nan =? nan)%float = false \/ (1 =? 1)%float = false)
  /\ In (lit "adverbCount") (map lit rated_metrics)
  /\ getMetricDirection (lit "adverbCount") nan 1 = worsened.
Proof.
  assert (Hin : In (lit "adverbCount") (map lit rated_metrics))
    by (apply rated_In; reflexivity).
  split; [left; reflexivity|]. split; [exact Hin|].
  apply (getMetricDirection_nan (lit "adverbCount") nan 1);
    [left; reflexivity | exact Hin].
Defined.

(** ** The labels *)

(** Both labels follow the order of the numbers: a higher reading-ease score
    never gets a harder label, and a higher grade never gets a lower
    label. *)
Theorem labels_monotone (x y : float) :
  (x <=? y)%float = true ->
  ease_rank (readingEaseLabel x) <= ease_rank (readingEaseLabel y)
  /\ grade_rank (gradeLevelLabel x) <= grade_rank (gradeLevelLabel y).
Proof.
  intros H.
  assert (Tl : forall c, (c <=? x)%float = true -> (c <=? y)%float = true)
    by (intros c Hc; exact (float_leb_trans c x y Hc H)).
  assert (Tr : forall c, (y <=? c)%float = true -> (x <=? c)%float = true)
    by (intros c Hc; exact (float_leb_trans x y c H Hc)).
  unfold readingEaseLabel, gradeLevelLabel. split.
  - destruct (80 <=? x)%float eqn:E1; [rewrite (Tl _ E1)|];
      (destruct (60 <=? x)%float eqn:E2; [try rewrite (Tl _ E2)|]);
      (destruct (40 <=? x)%float eqn:E3; [try rewrite (Tl _ E3)|]);
      repeat match goal with
             | |- context [(?c <=? y)%float] => destruct (c <=? y)%float
             end; vm_compute; lia.
  - destruct (y <=? 6)%float eqn:E1; [rewrite (Tr _ E1)|];
      (destruct (y <=? 8)%float eqn:E2; [try rewrite (Tr _ E2)|]);
      (destruct (y <=? 12)%float eqn:E3; [try rewrite (Tr _ E3)|]);
      repeat match goal with
             | |- context [(x <=? ?c)%float] => destruct (x <=? c)%float
             end; vm_compute; lia.
Qed.

Lemma labels_monotone_witness :
  (59.9 <=? 60)%float = true
  /\ ease_rank (readingEaseLabel 59.9) <= ease_rank (readingEaseLabel 60)
  /\ grade_rank (gradeLevelLabel 59.9) <= grade_rank (gradeLevelLabel 60).
Proof.
  split; [reflexivity|]. apply (labels_monotone 59.9 60). reflexivity.
Defined.

(* ===================================================================== *)
(** * Properties of the component's handlers *)
(* ===================================================================== *)

Lemma word_tokenize_spec_nil s :
  forallb is_space s = false -> word_tokenize_spec s <> [].
Proof.
  induction s as [|c s IH]; [discriminate|].
  cbn [forallb word_tokenize_spec].
  destruct (is_space c); cbn [andb]; [exact IH|]. intros _.
  destruct s as [|d s']; [discriminate|].
  destruct (is_space d); [discriminate|].
  now destruct (word_tokenize_spec (d :: s')).
Qed.

Lemma compare_guard (st : AppState) :
  str_empty (trim (beforeText st)) || str_empty (trim (afterText st)) = false
  <-> forallb is_space (beforeText st) = false
      /\ forallb is_space (afterText st) = false.
Proof.
  rewrite orb_false_iff.
  assert (G : forall s, str_empty (trim s) = false
                        <-> forallb is_space s = false).
  { intros s. pose proof (trim_nil_iff s) as T.
    destruct (trim s) eqn:E, (forallb is_space s) eqn:F; cbn;
      split; intros Hx; try reflexivity; try discriminate.
    - destruct T as [T _]. now specialize (T eq_refl).
    - destruct T as [_ T]. now specialize (T eq_refl). }
  now rewrite !G.
Qed.

Lemma computeDiff_self s :
  computeDiff s s = map (mkOp equal) (word_tokenize_spec s).
Proof.
  rewrite computeDiff_words. unfold backtrack.
  rewrite backtrack_loop_same by lia.
  now rewrite firstn_all, app_nil_r.
Qed.

Lemma views_of_equal_ops ws :
  getBeforeView (map (mkOp equal) ws) = map (fun w => mkSegment w false) ws
  /\ getAfterView (map (mkOp equal) ws) = map (fun w => mkSegment w false) ws.
Proof.
  unfold getBeforeView, getAfterView.
  induction ws as [|w ws [IH1 IH2]]; [split; reflexivity|].
  cbn. cbn in IH1, IH2. rewrite IH1, IH2. split; reflexivity.
Qed.

(** Comparing never touches the two texts or the copied flag, never clears
    results that are there, and changes nothing at all when one of the
    texts is blank, as both are right after a reset. *)
Theorem handleCompare_keeps (num_str : float -> jsstring) (st : AppState) :
  beforeText (handleCompare num_str st) = beforeText st
  /\ afterText (handleCompare num_str st) = afterText st
  /\ copied (handleCompare num_str st) = copied st
  /\ (results st <> None -> results (handleCompare num_str st) <> None)
  /\ (forallb is_space (beforeText st) = true
      \/ forallb is_space (afterText st) = true ->
      handleCompare num_str st = st)
  /\ handleCompare num_str (handleReset st) = handleReset st.
Proof.
  split; [|split; [|split; [|split; [|split; [|reflexivity]]]]];
    unfold handleCompare;
    destruct (str_empty (trim (beforeText st))
              || str_empty (trim (afterText st))) eqn:E;
    try reflexivity; try (intros; assumption); try (intros; discriminate).
  apply compare_guard in E as [E1 E2]. intros [H|H]; congruence.
Qed.

(** Comparing twice in a row gives what comparing once gives. *)
Theorem handleCompare_idempotent (num_str : float -> jsstring)
  (st : AppState) :
  handleCompare num_str (handleCompare num_str st) = handleCompare num_str st.
Proof.
  unfold handleCompare.
  destruct (str_empty (trim (beforeText st))
            || str_empty (trim (afterText st))) eqn:E.
  - now rewrite E.
  - cbn [beforeText afterText copied]. now rewrite E.
Qed.

(** With two texts that are not blank, comparing stores results: each view
    shows the words of its text, in order, and at least one; and each side
    counts at least one sentence. *)
Theorem handleCompare_results (num_str : float -> jsstring) (st : AppState) :
  forallb is_space (beforeText st) = false ->
  forallb is_space (afterText st) = false ->
  exists r, results (handleCompare num_str st) = Some r
    /\ map text (beforeView r) = word_tokenize_spec (beforeText st)
    /\ map text (afterView r) = word_tokenize_spec (afterText st)
    /\ beforeView r <> [] /\ afterView r <> []
    /\ beforeMetrics r = analyzeText (beforeText st)
    /\ afterMetrics r = analyzeText (afterText st)
    /\ 1 <= sentenceCount (beforeMetrics r)
    /\ 1 <= sentenceCount (afterMetrics r).
Proof.
  intros Hb Ha. unfold handleCompare.
  destruct (compare_guard st) as [_ G]. rewrite (G (conj Hb Ha)).
  eexists. split; [reflexivity|]. cbn [beforeView afterView beforeMetrics
    afterMetrics results].
  destruct (view_texts (computeDiff (beforeText st) (afterText st)))
    as [V1 V2].
  rewrite diff_before_words in V1. rewrite diff_after_words in V2.
  pose proof (word_tokenize_spec_nil _ Hb) as N1.
  pose proof (word_tokenize_spec_nil _ Ha) as N2.
  destruct (analyzeText_sentences _ Hb) as (S1 & _).
  destruct (analyzeText_sentences _ Ha) as (S2 & _).
  repeat split; try assumption; try lia.
  - intros Hnil. rewrite Hnil in V1. now apply N1.
  - intros Hnil. rewrite Hnil in V2. now apply N2.
Qed.

Lemma handleCompare_results_witness :
  let st := mkAppState (lit "The cat sat.") (lit "A cat sat down.")
              None false in
  forallb is_space (beforeText st) = false
  /\ forallb is_space (afterText st) = false
  /\ exists r,
       results (handleCompare (fun _ => []) st) = Some r
       /\ map text (beforeView r) = [lit "The"; lit "cat"; lit "sat."]
       /\ map text (afterView r)
          = [lit "A"; lit "cat"; lit "sat"; lit "down."].
Proof.
  intros st. split; [reflexivity|]. split; [reflexivity|].
  destruct (handleCompare_results (fun _ => []) st eq_refl eq_refl)
    as (r & Hr & H1 & H2 & _).
  exists r. repeat split; assumption.
Defined.

(** With the same text on both sides (not blank), comparing stores two
    equal views without a highlighted word, equal metrics, and the summary
    about two similar versions (or the request to enter text, when the text
    has no word). *)
Theorem handleCompare_same_text (num_str : float -> jsstring)
  (st : AppState) :
  afterText st = beforeText st ->
  forallb is_space (beforeText st) = false ->
  exists r, results (handleCompare num_str st) = Some r
    /\ Forall (fun g => highlighted g = false) (beforeView r)
    /\ afterView r = beforeView r
    /\ afterMetrics r = beforeMetrics r
    /\ summary r =
       if wordCount (beforeMetrics r) =? 0
       then lit "Enter text in both fields to see an analysis."
       else lit "The two versions are very similar in readability. The differences are minimal.".
Proof.
  intros Hsame Hb. unfold handleCompare.
  destruct (compare_guard st) as [_ G]. rewrite Hsame in *.
  rewrite (G (conj Hb Hb)).
  eexists. split; [reflexivity|].
  cbn [beforeView afterView beforeMetrics afterMetrics summary].
  rewrite computeDiff_self.
  destruct (views_of_equal_ops (word_tokenize_spec (beforeText st)))
    as [-> ->].
  repeat split.
  - apply Forall_forall. intros g Hg.
    apply in_map_iff in Hg as (w & <- & _). reflexivity.
  - unfold generateSummary. rewrite observations_self, orb_diag.
    now destruct (wordCount (analyzeText (beforeText st)) =? 0).
Qed.

Lemma handleCompare_same_text_witness :
  let st := mkAppState (lit "Buy now.") (lit "Buy now.") None false in
  afterText st = beforeText st
  /\ forallb is_space (beforeText st) = false
  /\ exists r,
       results (handleCompare (fun _ => []) st) = Some r
       /\ afterView r = beforeView r
       /\ summary r =
          lit "The two versions are very similar in readability. The differences are minimal.".
Proof.
  intros st. split; [reflexivity|]. split; [reflexivity|].
  destruct (handleCompare_same_text (fun _ => []) st eq_refl eq_refl)
    as (r & Hr & _ & Hv & Hm & Hs).
  exists r. split; [exact Hr|]. split; [exact Hv|].
  rewrite Hs. cbn [results handleCompare] in Hr.
  injection Hr as <-. reflexivity.
Defined.

